(** * Feature-toggle audit: a shallow embedding of [scripts/enforce-toggles.js]
    and of the hook [src/utils/useReleaseToggle.jsx].

    The script loads a manifest of valid toggle keys, walks the source
    tree, collects the literal keys passed to [useReleaseToggle] with a
    regular expression, and warns about the keys that the manifest does
    not define.  The hook looks a key up in the entitlements mapping.

    JavaScript strings are sequences of UTF-16 code units; they are
    modelled as [list N].  A JavaScript [Set] of strings keeps its
    members in insertion order without repetition; it is modelled as a
    list together with [Set_add]. *)

From Stdlib Require Import NArith String Ascii.
From Equations Require Import Equations.
From stdpp Require Import base list sorting gmap.

Local Open Scope N_scope.

(** ** Strings *)

Definition jsstring := list N.

(** The code units of an ASCII literal. *)
Fixpoint str (s : string) : jsstring :=
  match s with
  | EmptyString => []
  | String a r => N_of_ascii a :: str r
  end.

Definition APOSTROPHE : N := 39.
Definition QUOTATION_MARK : N := 34.
Definition GRAVE_ACCENT : N := 96.
Definition LEFT_PAREN : N := 40.
Definition SOLIDUS : N := 47.

(** ** The regular expression [TOGGLE_CALL_RE]

    The source writes it as the hook name, [\s*], [\(], [\s*], a bracket
    class Q holding the apostrophe, the quotation mark and the grave accent,
    a capture group of one or more code units outside Q, and Q again, with
    the global flag [g]. *)

(** The class [\s] of ECMAScript: WhiteSpace and LineTerminator. *)
Definition is_space (c : N) : bool :=
  (c =? 9) || (c =? 10) || (c =? 11) || (c =? 12) || (c =? 13) || (c =? 32)
  || (c =? 160) || (c =? 5760) || ((8192 <=? c) && (c <=? 8202))
  || (c =? 8232) || (c =? 8233) || (c =? 8239) || (c =? 8287)
  || (c =? 12288) || (c =? 65279).

(** The class Q of the three quote characters. *)
Definition is_quote (c : N) : bool :=
  (c =? APOSTROPHE) || (c =? QUOTATION_MARK) || (c =? GRAVE_ACCENT).

Definition HOOK_NAME : jsstring := str "useReleaseToggle".

Section Spans.
Context {A : Type} (p : A → bool).

Fixpoint take_while (l : list A) : list A :=
  match l with
  | x :: r => if p x then x :: take_while r else []
  | [] => []
  end.

Fixpoint drop_while (l : list A) : list A :=
  match l with
  | x :: r => if p x then drop_while r else l
  | [] => []
  end.
End Spans.

(** Consume the literal [lit] at the front of [s]. *)
Fixpoint match_literal (lit s : jsstring) : option jsstring :=
  match lit, s with
  | [], _ => Some s
  | a :: lit', b :: s' => if a =? b then match_literal lit' s' else None
  | _ :: _, [] => None
  end.

(** Consume one code unit of the class [cls]. *)
Definition match_class (cls : N → bool) (s : jsstring) : option jsstring :=
  match s with
  | c :: r => if cls c then Some r else None
  | [] => None
  end.

(** One attempt of the pattern at the front of [s]: the capture group and
    what follows the match.  Every quantifier of the pattern is followed by
    a code unit outside its class, so the greedy choice is the only one. *)
Definition TOGGLE_CALL_RE_at (s : jsstring) : option (jsstring * jsstring) :=
  s1 ← match_literal HOOK_NAME s;
  s2 ← match_class (N.eqb LEFT_PAREN) (drop_while is_space s1);
  s3 ← match_class is_quote (drop_while is_space s2);
  let key := take_while (λ c, negb (is_quote c)) s3 in
  match key with
  | [] => None
  | _ :: _ =>
    s4 ← match_class is_quote (drop_while (λ c, negb (is_quote c)) s3);
    Some (key, s4)
  end.

(** The search of [exec]: [s] is the text from index [j] on; the pattern is
    tried at [j], [j+1], ... up to and including the end of the text.  The
    result is the capture and the index just after the match. *)
Fixpoint search_from (s : jsstring) (j : nat) : option (jsstring * nat) :=
  match TOGGLE_CALL_RE_at s with
  | Some (key, rest) => Some (key, (j + (length s - length rest))%nat)
  | None =>
    match s with
    | [] => None
    | _ :: s' => search_from s' (S j)
    end
  end.

(** [TOGGLE_CALL_RE.exec(content)] for the global ([g]) expression whose
    [lastIndex] property holds [lastIndex]: the capture (or [None] for
    [null]) and the new value of [lastIndex]. *)
Definition TOGGLE_CALL_RE_exec (content : jsstring) (lastIndex : nat)
  : option jsstring * nat :=
  if decide (length content < lastIndex)%nat then (None, 0%nat)
  else
    match search_from (drop lastIndex content) lastIndex with
    | Some (key, e) => (Some key, e)
    | None => (None, 0%nat)
    end.

(** ** Sets of strings *)

Definition Set_add (k : jsstring) (s : list jsstring) : list jsstring :=
  if decide (k ∈ s) then s else s ++ [k].

(** ** [extractToggleKeysFromFile]

    The [while] loop calls [exec] until it answers [null], adding every
    capture to [keys].  [TOGGLE_CALL_RE] is one object shared by all calls,
    so its [lastIndex] is threaded through: the loop takes the value it
    finds and returns the value it leaves. *)

Definition inspect {A} (a : A) : {b | a = b} := exist _ a eq_refl.

Equations? exec_loop (content : jsstring) (lastIndex : nat)
    (keys : list jsstring) : list jsstring * nat
    by wf (length content - lastIndex)%nat lt :=
  exec_loop content lastIndex keys
    with inspect (TOGGLE_CALL_RE_exec content lastIndex) := {
    | exist _ (Some key, lastIndex') _ =>
        exec_loop content lastIndex' (Set_add key keys)
    | exist _ (None, lastIndex') _ => (keys, lastIndex') }.
Proof.
  assert (Hlit : ∀ lit s r, match_literal lit s = Some r →
                 length s = (length lit + length r)%nat).
  { induction lit as [|a lit IH]; intros [|b s] r H; simpl in H.
    - by inversion H.
    - by inversion H.
    - done.
    - destruct (a =? b); [|done]. simpl. by rewrite (IH _ _ H). }
  assert (Hcls : ∀ cls s r, match_class cls s = Some r →
                 length s = S (length r)).
  { intros cls [|c s] r H; simpl in *; [done|].
    destruct (cls c); by simplify_eq. }
  assert (Hdrop : ∀ (p : N → bool) s,
            (length (drop_while p s) ≤ length s)%nat).
  { intros p s. induction s as [|c s IH]; simpl; [done|].
    destruct (p c); simpl; lia. }
  assert (Hat : ∀ s cap rest, TOGGLE_CALL_RE_at s = Some (cap, rest) →
                (length rest < length s)%nat).
  { intros s cap rest H. unfold TOGGLE_CALL_RE_at in H.
    destruct (match_literal HOOK_NAME s) as [s1|] eqn:H1; [|done].
    apply Hlit in H1. simpl in H.
    destruct (match_class _ (drop_while is_space s1)) as [s2|] eqn:H2; [|done].
    apply Hcls in H2. simpl in H.
    destruct (match_class _ (drop_while is_space s2)) as [s3|] eqn:H3; [|done].
    apply Hcls in H3. simpl in H.
    destruct (take_while _ s3); [done|].
    destruct (match_class _ (drop_while _ s3)) as [s4|] eqn:H4; [|done].
    apply Hcls in H4. simpl in H. simplify_eq.
    pose proof (Hdrop is_space s1). pose proof (Hdrop is_space s2).
    pose proof (Hdrop (λ c, negb (is_quote c)) s3). lia. }
  assert (Hsearch : ∀ s j cap i, search_from s j = Some (cap, i) →
                    (j < i ≤ j + length s)%nat).
  { induction s as [|c s IH]; intros j cap i H; simpl in H.
    - by destruct (TOGGLE_CALL_RE_at []) as [[??]|] eqn:Hnil.
    - destruct (TOGGLE_CALL_RE_at (c :: s)) as [[k rest]|] eqn:Hm.
      + apply Hat in Hm. simpl in *. simplify_eq. lia.
      + apply IH in H. simpl. lia. }
  unfold TOGGLE_CALL_RE_exec in *. case_decide; [done|].
  destruct (search_from _ _) as [[k i]|] eqn:Hs; [|done].
  apply Hsearch in Hs. rewrite length_drop in Hs. simplify_eq. lia.
Qed.

(** [extractToggleKeysFromFile]: the content of the file is what
    [readFileSync] returns for its path. *)
Definition extractToggleKeysFromFile (content : jsstring) (lastIndex : nat)
  : list jsstring * nat :=
  exec_loop content lastIndex [].

(** ** The source tree and [walkJsFiles]

    A directory entry, as [readdirSync] with [withFileTypes] reports it, is
    a regular file, a directory, or something else (a link, a socket...).
    A file carries the text that [readFileSync] returns for it. *)

#[warnings="-register-all"] Inductive entry :=
| File (name : jsstring) (content : jsstring)
| Dir (name : jsstring) (children : list entry)
| Other (name : jsstring).

Definition NODE_MODULES : jsstring := str "node_modules".

(** [join(dir, name)] for a directory [dir] that is a normalised path
    without a separator at its end and a name read from that directory;
    for such arguments [path.join] has nothing to normalise. *)
Definition join (dir name : jsstring) : jsstring := dir ++ [SOLIDUS] ++ name.

(** The test of the expression written [\.(jsx?|tsx?)$]: some suffix of the
    name is exactly [.js], [.jsx], [.ts] or [.tsx]. *)
Definition JS_EXTENSIONS : list jsstring :=
  [str ".js"; str ".jsx"; str ".ts"; str ".tsx"].

Fixpoint js_extension_test (name : jsstring) : bool :=
  bool_decide (name ∈ JS_EXTENSIONS) ||
  match name with
  | [] => false
  | _ :: name' => js_extension_test name'
  end.

(** A discovered file: the path that the generator yields and the text
    found there. *)
Record source_file := SourceFile {
  file_path : jsstring;
  file_content : jsstring
}.

(** The body of the [for] loop of [walkJsFiles] for one entry of [dir]. *)
Fixpoint walk_entry (dir : jsstring) (e : entry) : list source_file :=
  match e with
  | Dir name children =>
      if decide (name ≠ NODE_MODULES)
      then flat_map (walk_entry (join dir name)) children
      else []
  | File name content =>
      if js_extension_test name then [SourceFile (join dir name) content]
      else []
  | Other _ => []
  end.

(** [walkJsFiles(dir)], where [entries] is what [readdirSync(dir)] lists;
    the generator is consumed to its end, so it is modelled as the list of
    what it yields, in order. *)
Definition walkJsFiles (dir : jsstring) (entries : list entry)
  : list source_file :=
  flat_map (walk_entry dir) entries.

(** ** [extractAllUsedKeys] *)

(** The inner [for] loop: every key of one file is added to [used]. *)
Definition add_all (keys used : list jsstring) : list jsstring :=
  foldl (λ acc key, Set_add key acc) used keys.

(** One iteration of the outer loop, on the pair of [used] and the
    [lastIndex] of the shared expression. *)
Definition scan_file (st : list jsstring * nat) (f : source_file)
  : list jsstring * nat :=
  let '(keys, lastIndex') := extractToggleKeysFromFile (file_content f) st.2 in
  (add_all keys st.1, lastIndex').

Definition scan_files (files : list source_file) (st : list jsstring * nat)
  : list jsstring * nat :=
  foldl scan_file st files.

(** [SRC_DIR] is [join(ROOT, "src")]. *)
Definition SRC_DIR (ROOT : jsstring) : jsstring := join ROOT (str "src").

(** [extractAllUsedKeys()], given the entries of the source directory.  The
    expression object is fresh when the module is loaded, so [lastIndex]
    starts at 0. *)
Definition extractAllUsedKeys (ROOT : jsstring) (src : list entry)
  : list jsstring :=
  (scan_files (walkJsFiles (SRC_DIR ROOT) src) ([], 0%nat)).1.

(** ** JSON values and [JSON.parse]

    The value that [JSON.parse] builds.  The program never inspects a
    number, so a number is kept as the numeral that denotes it.  An object
    holds its properties in the order of their creation. *)

#[warnings="-register-all"] Inductive json :=
| JNull
| JBool (b : bool)
| JNum (numeral : jsstring)
| JStr (s : jsstring)
| JArr (items : list json)
| JObj (members : list (jsstring * json)).

(** What a failing step throws, and the completion of a step that may
    throw. *)
Inductive thrown := ReadError | SyntaxError | TypeError.

Inductive completion (A : Type) :=
| Normal (a : A)
| Throw (e : thrown).
Arguments Normal {A} a.
Arguments Throw {A} e.

Global Instance completion_bind : MBind completion := λ A B f c,
  match c with
  | Normal a => f a
  | Throw e => Throw e
  end.

Definition is_json_ws (c : N) : bool :=
  (c =? 9) || (c =? 10) || (c =? 13) || (c =? 32).

Definition is_digit (c : N) : bool := (48 <=? c) && (c <=? 57).

Definition hex_value (c : N) : option N :=
  if is_digit c then Some (c - 48)
  else if (97 <=? c) && (c <=? 102) then Some (c - 87)
  else if (65 <=? c) && (c <=? 70) then Some (c - 55)
  else None.

(** The code unit that the escape [\c] denotes, [\u] apart. *)
Definition simple_escape (c : N) : option N :=
  if c =? 34 then Some 34 else if c =? 92 then Some 92
  else if c =? 47 then Some 47 else if c =? 98 then Some 8
  else if c =? 102 then Some 12 else if c =? 110 then Some 10
  else if c =? 114 then Some 13 else if c =? 116 then Some 9
  else None.

(** The characters of a string after its opening quotation mark, up to and
    including the closing one. *)
Fixpoint parse_string_chars (s : jsstring) : option (jsstring * jsstring) :=
  match s with
  | [] => None
  | c :: r =>
    if c =? 34 then Some ([], r)
    else if c =? 92 then
      match r with
      | [] => None
      | e :: r1 =>
        if e =? 117 then
          match r1 with
          | h1 :: h2 :: h3 :: h4 :: r2 =>
            a ← hex_value h1; b ← hex_value h2;
            c ← hex_value h3; d ← hex_value h4;
            '(cs, rest) ← parse_string_chars r2;
            Some ((((a * 16 + b) * 16 + c) * 16 + d) :: cs, rest)
          | _ => None
          end
        else
          v ← simple_escape e;
          '(cs, rest) ← parse_string_chars r1;
          Some (v :: cs, rest)
      end
    else if c <? 32 then None
    else '(cs, rest) ← parse_string_chars r; Some (c :: cs, rest)
  end.

(** One or more digits. *)
Definition parse_digits (s : jsstring) : option (jsstring * jsstring) :=
  match take_while is_digit s with
  | [] => None
  | ds => Some (ds, drop_while is_digit s)
  end.

(** A number: optional minus, integer part without a leading zero,
    optional fraction, optional exponent. *)
Definition parse_number (s : jsstring) : option (jsstring * jsstring) :=
  let '(sign, s1) :=
    match s with 45 :: r => ([45], r) | _ => ([], s) end in
  '(int, s2) ←
    match s1 with
    | 48 :: r => Some ([48], r)
    | _ => parse_digits s1
    end;
  '(frac, s3) ←
    match s2 with
    | 46 :: r => '(ds, r') ← parse_digits r; Some (46 :: ds, r')
    | _ => Some ([], s2)
    end;
  '(exp, s4) ←
    match s3 with
    | c :: r =>
      if (c =? 101) || (c =? 69) then
        let '(esign, r1) :=
          match r with
          | d :: r' => if (d =? 43) || (d =? 45) then ([d], r') else ([], r)
          | [] => ([], r)
          end in
        '(ds, r2) ← parse_digits r1; Some (c :: esign ++ ds, r2)
      else Some ([], s3)
    | [] => Some ([], s3)
    end;
  Some (sign ++ int ++ frac ++ exp, s4).

(** [CreateDataProperty]: a repeated name keeps its place and takes the
    later value. *)
Fixpoint obj_set (k : jsstring) (v : json) (ms : list (jsstring * json))
  : list (jsstring * json) :=
  match ms with
  | [] => [(k, v)]
  | (k', v') :: ms' =>
    if decide (k = k') then (k, v) :: ms' else (k', v') :: obj_set k v ms'
  end.

(** A value, the elements of an array after its bracket, the members of
    an object after its brace.  [fuel] bounds the depth of the calls; every
    call consumes a character within two steps. *)
Fixpoint parse_value (fuel : nat) (s : jsstring) : option (json * jsstring) :=
  match fuel with
  | O => None
  | S fuel =>
    match drop_while is_json_ws s with
    | [] => None
    | c :: r =>
      if c =? 110 then r' ← match_literal (str "ull") r; Some (JNull, r')
      else if c =? 116 then
        r' ← match_literal (str "rue") r; Some (JBool true, r')
      else if c =? 102 then
        r' ← match_literal (str "alse") r; Some (JBool false, r')
      else if c =? 34 then
        '(cs, r') ← parse_string_chars r; Some (JStr cs, r')
      else if c =? 91 then
        match drop_while is_json_ws r with
        | 93 :: r' => Some (JArr [], r')
        | _ => '(vs, r') ← parse_elements fuel r; Some (JArr vs, r')
        end
      else if c =? 123 then
        match drop_while is_json_ws r with
        | 125 :: r' => Some (JObj [], r')
        | _ => '(ms, r') ← parse_members fuel [] r; Some (JObj ms, r')
        end
      else '(n, r') ← parse_number (c :: r); Some (JNum n, r')
    end
  end
with parse_elements (fuel : nat) (s : jsstring)
  : option (list json * jsstring) :=
  match fuel with
  | O => None
  | S fuel =>
    '(v, r) ← parse_value fuel s;
    match drop_while is_json_ws r with
    | 44 :: r' => '(vs, r'') ← parse_elements fuel r'; Some (v :: vs, r'')
    | 93 :: r' => Some ([v], r')
    | _ => None
    end
  end
with parse_members (fuel : nat) (acc : list (jsstring * json)) (s : jsstring)
  : option (list (jsstring * json) * jsstring) :=
  match fuel with
  | O => None
  | S fuel =>
    match drop_while is_json_ws s with
    | 34 :: r =>
      '(k, r1) ← parse_string_chars r;
      match drop_while is_json_ws r1 with
      | 58 :: r2 =>
        '(v, r3) ← parse_value fuel r2;
        let acc' := obj_set k v acc in
        match drop_while is_json_ws r3 with
        | 44 :: r4 => parse_members fuel acc' r4
        | 125 :: r4 => Some (acc', r4)
        | _ => None
        end
      | _ => None
      end
    | _ => None
    end
  end.

(** [JSON.parse(text)]: one value, with nothing but white space around. *)
Definition JSON_parse (text : jsstring) : completion json :=
  match parse_value (2 * length text + 2) text with
  | Some (v, rest) =>
    match drop_while is_json_ws rest with
    | [] => Normal v
    | _ :: _ => Throw SyntaxError
    end
  | None => Throw SyntaxError
  end.

(** ** [Array.isArray] and [Object.keys] *)

Definition Array_isArray (v : json) : bool :=
  match v with JArr _ => true | _ => false end.

(** The elements of an array, as a list. *)
Definition elements_of (v : json) : list json :=
  match v with JArr items => items | _ => [] end.

Fixpoint uint_digits (d : Decimal.uint) : jsstring :=
  match d with
  | Decimal.Nil => []
  | Decimal.D0 r => 48 :: uint_digits r
  | Decimal.D1 r => 49 :: uint_digits r
  | Decimal.D2 r => 50 :: uint_digits r
  | Decimal.D3 r => 51 :: uint_digits r
  | Decimal.D4 r => 52 :: uint_digits r
  | Decimal.D5 r => 53 :: uint_digits r
  | Decimal.D6 r => 54 :: uint_digits r
  | Decimal.D7 r => 55 :: uint_digits r
  | Decimal.D8 r => 56 :: uint_digits r
  | Decimal.D9 r => 57 :: uint_digits r
  end.

(** The decimal name of an index. *)
Definition index_name (n : N) : jsstring := uint_digits (N.to_uint n).

Definition digits_value (s : jsstring) : N :=
  foldl (λ acc c, acc * 10 + (c - 48)) 0 s.

(** The index that a property name denotes, when it is an array index: the
    canonical numeral of an integer below [2^32 - 1]. *)
Definition array_index (k : jsstring) : option N :=
  if forallb is_digit k
     && bool_decide (index_name (digits_value k) = k)
     && (digits_value k <? 4294967295)
  then Some (digits_value k) else None.

(** The own property names in the order of [OrdinaryOwnPropertyKeys]: the
    array indices in ascending order, then the other names in the order of
    their creation. *)
Definition own_keys_order (names : list jsstring) : list jsstring :=
  (index_name <$> merge_sort N.le (omap array_index names))
  ++ filter (λ k, array_index k = None) names.

(** [Object.keys(v)]: [null] cannot be converted to an object; a boolean
    or a number has no own enumerable property; a string or an array has
    its indices. *)
Definition Object_keys (v : json) : completion (list jsstring) :=
  match v with
  | JNull => Throw TypeError
  | JBool _ | JNum _ => Normal []
  | JStr s => Normal (index_name ∘ N.of_nat <$> seq 0 (length s))
  | JArr l => Normal (index_name ∘ N.of_nat <$> seq 0 (length l))
  | JObj ms => Normal (own_keys_order ms.*1)
  end.

(** ** [loadManifest] *)

(** What a run writes: the three calls of the script on the console, and
    the report that the runtime writes when an exception is not caught.  Of
    the call of [console.error] only the kind of the error caught is kept;
    the text printed, which also names [MANIFEST_PATH], is not. *)
Inductive message :=
| console_error (e : thrown)
| console_warn (unknown : list jsstring)
| console_log
| uncaught_exception (e : thrown).

(** A step of the process either goes on with a value or ends the process
    through [process.exit]. *)
Inductive step (A : Type) :=
| Continue (a : A)
| Exit (status : Z).
Arguments Continue {A} a.
Arguments Exit {A} status.

(** [readFileSync(MANIFEST_PATH)], where [manifest_file] is what is found
    at that path: the text of the file, or nothing when the file is missing
    or unreadable. *)
Definition readFileSync (manifest_file : option jsstring)
  : completion jsstring :=
  match manifest_file with
  | Some raw => Normal raw
  | None => Throw ReadError
  end.

(** The body of the [try] block. *)
Definition loadManifest_try (manifest_file : option jsstring)
  : completion (list json) :=
  raw ← readFileSync manifest_file;
  data ← JSON_parse raw;
  if Array_isArray data then Normal (elements_of data)
  else keys ← Object_keys data; Normal (map JStr keys).

Definition loadManifest (manifest_file : option jsstring)
  : list message * step (list json) :=
  match loadManifest_try manifest_file with
  | Normal keys => ([], Continue keys)
  | Throw e => ([console_error e], Exit 2)
  end.

(** ** [main] *)

(** [SameValueZero(v, k)] for a string [k]: only the same string is equal
    to it. *)
Definition same_string (k : jsstring) (v : json) : bool :=
  match v with
  | JStr s => bool_decide (s = k)
  | _ => false
  end.

(** [defined.has(k)] for the set built from the values of the manifest and
    a string [k]; the repetitions that the set drops do not matter to it. *)
Definition Set_has (defined : list json) (k : jsstring) : bool :=
  existsb (same_string k) defined.

Definition unknown_keys (defined : list json) (used : list jsstring)
  : list jsstring :=
  List.filter (λ k, negb (Set_has defined k)) used.

(** What a run depends on: the project root, what is found at
    [MANIFEST_PATH] (the path named by [ENTITLEMENTS_MANIFEST], or the
    default one), and the source tree.  [src] holds the entries of the
    source directory when every [readdirSync] and [readFileSync] that the
    run performs on the tree succeeds, and nothing when one of them throws:
    the source directory is missing, or a directory or a file that the walk
    reaches cannot be read. *)
Record world := World {
  ROOT : jsstring;
  manifest_file : option jsstring;
  src : option (list entry)
}.

(** [extractAllUsedKeys()] within a run: the reads of the tree are inside
    no [try] block, so an exception that one of them throws leaves the
    function. *)
Definition extractAllUsedKeys_run (ROOT : jsstring)
    (src : option (list entry)) : completion (list jsstring) :=
  match src with
  | Some entries => Normal (extractAllUsedKeys ROOT entries)
  | None => Throw ReadError
  end.

(** What the process writes and its exit status.  A process whose [main]
    returns ends with status 0; an exception that leaves [main] is
    reported by the runtime, which ends the process with status 1. *)
Definition main (w : world) : list message * Z :=
  match loadManifest (manifest_file w) with
  | (out, Exit status) => (out, status)
  | (out, Continue keys) =>
    let defined := keys in
    match extractAllUsedKeys_run (ROOT w) (src w) with
    | Throw e => (out ++ [uncaught_exception e], 1%Z)
    | Normal used =>
      let unknown := unknown_keys defined used in
      if decide (0 < length unknown)%nat
      then (out ++ [console_warn unknown], 0%Z)
      else (out ++ [console_log], 0%Z)
    end
  end.

(** ** The hook [useReleaseToggle]

    The store slot [state.common.entitlements] holds a plain object from
    toggle keys to primitive values, or [null], or [undefined]. *)

Inductive value :=
| VUndefined
| VNull
| VBool (b : bool)
| VNum (n : Z)
| VStr (s : jsstring).

Inductive entitlements_slot :=
| SlotUndefined
| SlotNull
| SlotObject (own : gmap jsstring value).

Record common_state := CommonState { entitlements : entitlements_slot }.
Record state := State { common : common_state }.

(** [useSelector(selector)] reads the store. *)
Definition useSelector {A} (store : state) (selector : state → A) : A :=
  selector store.

(** The object passed as second argument; a property that is absent reads
    as [VUndefined]. *)
Record options := Options {
  opt_defaultValue : value;
  opt_alertIfUnknown : value
}.

(** A destructuring default replaces [undefined] only. *)
Definition or_default (v default : value) : value :=
  match v with VUndefined => default | _ => v end.

Definition truthy (v : value) : bool :=
  match v with
  | VUndefined | VNull => false
  | VBool b => b
  | VNum n => negb (n =? 0)%Z
  | VStr s => negb (bool_decide (s = []))
  end.

(** [entitlements && Object.prototype.hasOwnProperty.call(entitlements,
    toggleKey)], as a truth value. *)
Definition toggleExists (e : entitlements_slot) (toggleKey : jsstring) : bool :=
  match e with
  | SlotUndefined | SlotNull => false
  | SlotObject own => bool_decide (is_Some (own !! toggleKey))
  end.

(** [entitlements[toggleKey]]. *)
Definition get_property (e : entitlements_slot) (toggleKey : jsstring)
  : value :=
  match e with
  | SlotObject own => default VUndefined (own !! toggleKey)
  | _ => VUndefined
  end.

(** The condition under which the effect scheduled by [useEffect] would
    report the key; its body is empty in the source. *)
Definition alert_due (exists_ : bool) (alertIfUnknown : value) : bool :=
  negb exists_ && truthy alertIfUnknown.

(** The binding of [defaultValue] by the parameter pattern; [opts] is [None]
    when the second argument is omitted, and then defaults to the empty
    object. *)
Definition defaultValue_of (opts : option options) : value :=
  let o := default (Options VUndefined VUndefined) opts in
  or_default (opt_defaultValue o) (VBool true).

Definition alertIfUnknown_of (opts : option options) : value :=
  let o := default (Options VUndefined VUndefined) opts in
  or_default (opt_alertIfUnknown o) (VBool true).

(** [useReleaseToggle(toggleKey, opts)]. *)
Definition useReleaseToggle (store : state) (toggleKey : jsstring)
    (opts : option options) : value :=
  let defaultValue := defaultValue_of opts in
  let entitlements :=
    useSelector store (λ state, entitlements (common state)) in
  let toggleExists := toggleExists entitlements toggleKey in
  if toggleExists then get_property entitlements toggleKey else defaultValue.

(** Whether the effect that the hook schedules enters its branch. *)
Definition useReleaseToggle_effect (store : state) (toggleKey : jsstring)
    (opts : option options) : bool :=
  let entitlements :=
    useSelector store (λ state, entitlements (common state)) in
  alert_due (toggleExists entitlements toggleKey) (alertIfUnknown_of opts).

(** ** The language of [TOGGLE_CALL_RE], declaratively *)

Definition spaces (ws : jsstring) : Prop := forallb is_space ws = true.
Definition quote_free (s : jsstring) : Prop :=
  forallb (λ c, negb (is_quote c)) s = true.

(** [s] begins with a match of the pattern that captures [key] and leaves
    [rest]: the hook name, white space, a parenthesis, white space, a quote
    character, a non-empty run of characters that are not quote characters,
    and a quote character. *)
Definition match_at_front (s key rest : jsstring) : Prop :=
  ∃ ws1 ws2 q1 q2,
    s = HOOK_NAME ++ ws1 ++ [LEFT_PAREN] ++ ws2 ++ [q1] ++ key ++ [q2] ++ rest
    ∧ spaces ws1 ∧ spaces ws2
    ∧ is_quote q1 = true ∧ is_quote q2 = true
    ∧ key ≠ [] ∧ quote_free key.

(** A match in [content] that starts at index [i], captures [key] and ends
    just before index [e]. *)
Definition match_at (content : jsstring) (i : nat) (key : jsstring) (e : nat)
  : Prop :=
  (i ≤ length content)%nat ∧
  ∃ rest, match_at_front (drop i content) key rest
          ∧ e = (length content - length rest)%nat.

Definition no_match_in (content : jsstring) (from to : nat) : Prop :=
  ∀ j key e, (from ≤ j < to)%nat → ¬ match_at content j key e.

(** The captures of the matches met when reading [content] from index
    [from] on, each match being the first one that starts at or after the
    end of the one before. *)
Inductive scan (content : jsstring) : nat → list jsstring → Prop :=
| scan_end from :
    no_match_in content from (S (length content)) →
    scan content from []
| scan_match from i key e keys :
    (from ≤ i)%nat →
    match_at content i key e →
    no_match_in content from i →
    scan content e keys →
    scan content from (key :: keys).

(** The literal calls as the specification words them: the hook name,
    optional white space, a parenthesis, optional white space and a string
    literal between two apostrophes, two quotation marks or two grave
    accents, the last without a substitution, i.e. without a dollar sign
    followed by a brace. *)
Definition DOLLAR_BRACE : jsstring := [36; 123].

Definition string_literal (q : N) (key : jsstring) : Prop :=
  is_quote q = true ∧ (q ∉ key) ∧
  (q = GRAVE_ACCENT → ∀ a b, key ≠ a ++ DOLLAR_BRACE ++ b).

Definition literal_call (content key : jsstring) : Prop :=
  ∃ before ws1 ws2 q after,
    content = before ++ HOOK_NAME ++ ws1 ++ [LEFT_PAREN] ++ ws2
              ++ [q] ++ key ++ [q] ++ after
    ∧ spaces ws1 ∧ spaces ws2 ∧ string_literal q key.

(** ** Discovery, declaratively *)

(** [f] is a file with a script extension that lies under the directory
    [dir] with entries [entries], on a path through directories none of
    which is named [node_modules]. *)
Inductive discovered : jsstring → list entry → source_file → Prop :=
| discovered_here dir entries name content :
    File name content ∈ entries →
    js_extension_test name = true →
    discovered dir entries (SourceFile (join dir name) content)
| discovered_below dir entries name children f :
    Dir name children ∈ entries →
    name ≠ NODE_MODULES →
    discovered (join dir name) children f →
    discovered dir entries f.

(** Two trees that differ only below directories named [node_modules]. *)
#[warnings="-register-all"] Inductive same_outside_vendored
  : entry → entry → Prop :=
| sov_file name content :
    same_outside_vendored (File name content) (File name content)
| sov_other name :
    same_outside_vendored (Other name) (Other name)
| sov_vendored children children' :
    same_outside_vendored (Dir NODE_MODULES children)
                          (Dir NODE_MODULES children')
| sov_dir name children children' :
    Forall2 same_outside_vendored children children' →
    same_outside_vendored (Dir name children) (Dir name children').

(** Two listings of the same tree that differ in the order in which each
    directory lists its entries. *)
Inductive reordered : list entry → list entry → Prop :=
| reordered_nil : reordered [] []
| reordered_skip e e' l l' :
    reordered_entry e e' → reordered l l' → reordered (e :: l) (e' :: l')
| reordered_swap e1 e2 l : reordered (e1 :: e2 :: l) (e2 :: e1 :: l)
| reordered_trans l1 l2 l3 :
    reordered l1 l2 → reordered l2 l3 → reordered l1 l3
with reordered_entry : entry → entry → Prop :=
| reordered_file name content :
    reordered_entry (File name content) (File name content)
| reordered_other name : reordered_entry (Other name) (Other name)
| reordered_dir name children children' :
    reordered children children' →
    reordered_entry (Dir name children) (Dir name children').

Scheme reordered_mut := Induction for reordered Sort Prop
  with reordered_entry_mut := Induction for reordered_entry Sort Prop.

(** A key is referenced in the tree when the scan of some discovered file
    meets a match that captures it. *)
Definition referenced (root : jsstring) (entries : list entry) (k : jsstring)
  : Prop :=
  ∃ f found, f ∈ walkJsFiles (SRC_DIR root) entries
             ∧ scan (file_content f) 0 found ∧ k ∈ found.

(** How many times [k] occurs in [l]. *)
Definition occurrences (k : jsstring) (l : list jsstring) : nat :=
  length (List.filter (λ x, bool_decide (x = k)) l).

(** The keys that the scan of one file yields when the shared expression
    is at rest. *)
Definition keys_of_file (f : source_file) : list jsstring :=
  (extractToggleKeysFromFile (file_content f) 0).1.

(** What one entry of [dir] contributes to the discovery. *)
Definition discovered_in (dir : jsstring) (e : entry) (f : source_file)
  : Prop :=
  match e with
  | File name content =>
      js_extension_test name = true ∧ f = SourceFile (join dir name) content
  | Dir name children =>
      name ≠ NODE_MODULES ∧ discovered (join dir name) children f
  | Other _ => False
  end.

(** Two messages that say the same, the order of the keys of a warning
    left aside. *)
Definition same_report (m m' : message) : Prop :=
  match m, m' with
  | console_error e, console_error e' => e = e'
  | console_warn unknown, console_warn unknown' => unknown ≡ₚ unknown'
  | console_log, console_log => True
  | uncaught_exception e, uncaught_exception e' => e = e'
  | _, _ => False
  end.

(** The run reports the key [k] as unknown: its output holds a warning
    that lists [k]. *)
Definition reports (w : world) (k : jsstring) : Prop :=
  ∃ reported, console_warn reported ∈ (main w).1 ∧ k ∈ reported.

(** ** Sample inputs *)

Definition quoted (q : N) (s : jsstring) : jsstring := [q] ++ s ++ [q].

(** A call of the hook on a string literal between the quotes [q]. *)
Definition call_with (q : N) (key : jsstring) : jsstring :=
  HOOK_NAME ++ [LEFT_PAREN] ++ quoted q key ++ str ")".

(** The three calls of the literal-only example: an apostrophe literal, a
    quotation-mark literal and a variable. *)
Definition three_calls : jsstring :=
  call_with APOSTROPHE (str "known") ++ str "; "
  ++ call_with QUOTATION_MARK (str "unknown1") ++ str "; "
  ++ str "useReleaseToggle(variableName);".

(** A call on a template literal with a substitution. *)
Definition template_call : jsstring :=
  call_with GRAVE_ACCENT (str "a${b}").

(** The manifests of the shape example: an array of two strings and an
    object with the same two names. *)
Definition manifest_array_ab : jsstring :=
  str "[" ++ quoted QUOTATION_MARK (str "a") ++ str ","
  ++ quoted QUOTATION_MARK (str "b") ++ str "]".

Definition manifest_object_ab : jsstring :=
  str "{" ++ quoted QUOTATION_MARK (str "a") ++ str ":{}, "
  ++ quoted QUOTATION_MARK (str "b") ++ str ":{}}".

(** The manifest of the repository and a small tree with a misspelt key, a
    vendored file and a file that is not a script. *)
Definition manifest_repo : jsstring :=
  str "[" ++ quoted QUOTATION_MARK (str "exampleFeature") ++ str ", "
  ++ quoted QUOTATION_MARK (str "anotherToggle") ++ str "]".

Definition sample_tree : list entry :=
  [ File (str "App.jsx") (call_with APOSTROPHE (str "exampleFeature"));
    Dir (str "utils")
      [ File (str "menu.ts")
          (call_with QUOTATION_MARK (str "exmapleFeature") ++ str "; "
           ++ call_with APOSTROPHE (str "exampleFeature"));
        File (str "notes.txt") (call_with APOSTROPHE (str "inText")) ];
    Dir NODE_MODULES
      [ File (str "index.js") (call_with APOSTROPHE (str "vendored")) ];
    Other (str "link.js") ].

(** The same tree with its first two entries listed in the other order. *)
Definition sample_tree_swapped : list entry :=
  match sample_tree with
  | e1 :: e2 :: rest => e2 :: e1 :: rest
  | l => l
  end.

Definition sample_world : world :=
  World (str "/repo") (Some manifest_repo) (Some sample_tree).



(** A tree whose calls all name keys of the manifest. *)
Definition tidy_tree : list entry :=
  [ File (str "App.jsx") (call_with APOSTROPHE (str "exampleFeature"));
    Dir (str "utils")
      [ File (str "menu.ts") (call_with QUOTATION_MARK (str "anotherToggle")) ] ].

Definition tidy_world : world :=
  World (str "/repo") (Some manifest_repo) (Some tidy_tree).

(** ** Paths

    A name that [readdirSync] can report: not empty, without a separator,
    and neither of the two dot names.  A normalised absolute path is made
    of such names, each after a separator. *)

Definition simple_name (name : jsstring) : Prop :=
  name ≠ [] ∧ (SOLIDUS ∉ name) ∧ name ≠ str "." ∧ name ≠ str "..".

Definition absolute_path (names : list jsstring) : jsstring :=
  flat_map (λ name, SOLIDUS :: name) names.

Definition normalised_absolute (path : jsstring) : Prop :=
  ∃ names, names ≠ [] ∧ Forall simple_name names ∧ path = absolute_path names.

(** The names of all entries of a tree are simple. *)
#[warnings="-register-all"] Inductive well_named : entry → Prop :=
| well_named_file name content :
    simple_name name → well_named (File name content)
| well_named_dir name children :
    simple_name name → Forall well_named children →
    well_named (Dir name children)
| well_named_other name : simple_name name → well_named (Other name).

(** A store whose entitlements switch [exampleFeature] off. *)
Definition sample_store : state :=
  State (CommonState (SlotObject {[ str "exampleFeature" := VBool false ]})).

(** ** [MANIFEST_PATH]

    [process.env.ENTITLEMENTS_MANIFEST || join(ROOT, "config",
    "entitlements-manifest.json")]: the variable is a string when it is
    set, and the empty string is the only string that counts as false.
    [ROOT] is a normalised path that does not end in a separator. *)



(** The store whose entitlements slot holds the object with the own
    properties [own]. *)
Definition store_of (own : gmap jsstring value) : state :=
  State (CommonState (SlotObject own)).

(** A call written with white space around the parenthesis: a line break
    and a tab before it, a no-break space after it. *)
Definition spaced_call : jsstring :=
  HOOK_NAME ++ [10; 9] ++ [LEFT_PAREN] ++ [160]
  ++ quoted QUOTATION_MARK (str "spacedKey") ++ str ", { defaultValue: false })".

(** * Properties *)

(** ** Spans, literals and classes *)

Section SpanLemmas.
Context {A : Type} (p : A → bool).

Lemma take_drop_while l : take_while p l ++ drop_while p l = l.
Proof.
  induction l as [|x l IH]; simpl; [done|].
  destruct (p x); simpl; congruence.
Qed.

Lemma take_while_forallb l : forallb p (take_while p l) = true.
Proof.
  induction l as [|x l IH]; simpl; [done|].
  destruct (p x) eqn:Hx; simpl; [|done]. by rewrite Hx.
Qed.

Lemma drop_while_stops l c r : drop_while p l = c :: r → p c = false.
Proof.
  induction l as [|x l IH]; simpl; [done|].
  destruct (p x) eqn:Hx; [done|]. intros; by simplify_eq.
Qed.

Lemma take_while_app_stop a c r :
  forallb p a = true → p c = false → take_while p (a ++ c :: r) = a.
Proof.
  intros Ha Hc. induction a as [|x a IH]; simpl in *; [by rewrite Hc|].
  apply andb_prop in Ha as [-> Ha]. by rewrite IH.
Qed.

Lemma drop_while_app_stop a c r :
  forallb p a = true → p c = false → drop_while p (a ++ c :: r) = c :: r.
Proof.
  intros Ha Hc. induction a as [|x a IH]; simpl in *; [by rewrite Hc|].
  apply andb_prop in Ha as [-> Ha]. by rewrite IH.
Qed.

Lemma drop_while_length l : (length (drop_while p l) ≤ length l)%nat.
Proof.
  induction l as [|x l IH]; simpl; [done|]. destruct (p x); simpl; lia.
Qed.
End SpanLemmas.

Lemma match_literal_spec lit s r : match_literal lit s = Some r ↔ s = lit ++ r.
Proof.
  revert s. induction lit as [|a lit IH]; intros s; simpl.
  - split; congruence.
  - destruct s as [|b s]; [done|].
    destruct (N.eqb_spec a b) as [->|Hne]; [rewrite IH|]; split; congruence.
Qed.

Lemma match_class_spec cls s r :
  match_class cls s = Some r ↔ ∃ c, s = c :: r ∧ cls c = true.
Proof.
  destruct s as [|c s]; simpl.
  - split; [done|]. by intros (? & ? & _).
  - destruct (cls c) eqn:Hc; split.
    + intros [= ->]. by exists c.
    + by intros (? & [= -> ->] & _).
    + done.
    + intros (? & [= -> ->] & ?). congruence.
Qed.

Lemma quote_not_space c : is_quote c = true → is_space c = false.
Proof.
  unfold is_quote, is_space, APOSTROPHE, QUOTATION_MARK, GRAVE_ACCENT.
  rewrite !orb_true_iff, !N.eqb_eq. intros [[->| ->]| ->]; reflexivity.
Qed.

(** The matcher at one position computes exactly the declarative match. *)
Lemma TOGGLE_CALL_RE_at_spec s key rest :
  TOGGLE_CALL_RE_at s = Some (key, rest) ↔ match_at_front s key rest.
Proof.
  unfold TOGGLE_CALL_RE_at, match_at_front. split.
  - intros H.
    destruct (match_literal HOOK_NAME s) as [s1|] eqn:H1; [|done].
    apply match_literal_spec in H1. simpl in H.
    destruct (match_class _ (drop_while is_space s1)) as [s2|] eqn:H2; [|done].
    apply match_class_spec in H2 as (c2 & H2 & ->%N.eqb_eq). simpl in H.
    destruct (match_class _ (drop_while is_space s2)) as [s3|] eqn:H3; [|done].
    apply match_class_spec in H3 as (q1 & H3 & Hq1). simpl in H.
    destruct (take_while _ s3) as [|k0 key0] eqn:Hkey; [done|].
    destruct (match_class _ (drop_while _ s3)) as [s4|] eqn:H4; [|done].
    apply match_class_spec in H4 as (q2 & H4 & Hq2). simpl in H.
    simplify_eq.
    exists (take_while is_space s1), (take_while is_space s2), q1, q2.
    split_and!; try done.
    + rewrite <- Hkey. simpl.
      rewrite <- H4, (take_drop_while _ s3).
      rewrite <- H3, (take_drop_while is_space s2).
      change (LEFT_PAREN :: s2) with ([LEFT_PAREN] ++ s2).
      by rewrite <- H2, (take_drop_while is_space s1).
    + apply take_while_forallb.
    + apply take_while_forallb.
    + unfold quote_free. rewrite <- Hkey. apply take_while_forallb.
  - intros (ws1 & ws2 & q1 & q2 & -> & Hws1 & Hws2 & Hq1 & Hq2 & Hne & Hkey).
    rewrite (proj2 (match_literal_spec _ _ _) eq_refl). simpl.
    rewrite (drop_while_app_stop is_space ws1) by done. simpl.
    rewrite (drop_while_app_stop is_space ws2)
      by (done || by apply quote_not_space).
    simpl. rewrite Hq1. simpl.
    rewrite (take_while_app_stop _ key) by (done || by rewrite Hq2).
    rewrite (drop_while_app_stop _ key) by (done || by rewrite Hq2).
    simpl. rewrite Hq2. simpl. by destruct key.
Qed.

Lemma match_at_front_length s key rest :
  match_at_front s key rest → (length rest < length s)%nat.
Proof.
  intros (ws1 & ws2 & q1 & q2 & -> & _). rewrite !length_app. simpl. lia.
Qed.

Lemma match_at_front_fun s key rest key' rest' :
  match_at_front s key rest → match_at_front s key' rest' →
  key = key' ∧ rest = rest'.
Proof.
  intros H H'. apply TOGGLE_CALL_RE_at_spec in H, H'.
  rewrite H in H'. by simplify_eq.
Qed.

Lemma match_at_fun content i key e key' e' :
  match_at content i key e → match_at content i key' e' →
  key = key' ∧ e = e'.
Proof.
  intros (_ & rest & H & ->) (_ & rest' & H' & ->).
  by destruct (match_at_front_fun _ _ _ _ _ H H') as [-> ->].
Qed.

(** A match lies inside the text and is not empty. *)
Lemma match_at_bounds content i key e :
  match_at content i key e → (i < e ≤ length content)%nat.
Proof.
  intros (Hi & rest & H & ->). apply match_at_front_length in H.
  rewrite length_drop in H. lia.
Qed.

Lemma no_match_at_end content key e :
  ¬ match_at content (length content) key e.
Proof. intros H%match_at_bounds. lia. Qed.

(** The search finds the first match at or after its starting index. *)
Lemma search_from_spec content s j :
  (j ≤ length content)%nat → drop j content = s →
  match search_from s j with
  | Some (key, e) =>
      ∃ i, (j ≤ i)%nat ∧ match_at content i key e ∧ no_match_in content j i
  | None => no_match_in content j (S (length content))
  end.
Proof.
  revert j. induction s as [|c s IH]; intros j Hj Hs; simpl.
  - destruct (TOGGLE_CALL_RE_at []) as [[key rest]|] eqn:Hnil.
    { apply TOGGLE_CALL_RE_at_spec, match_at_front_length in Hnil.
      simpl in Hnil. lia. }
    intros i key e Hi H. apply match_at_bounds in H as Hb.
    assert (length (drop j content) = 0%nat) as Hlen by by rewrite Hs.
    rewrite length_drop in Hlen. lia.
  - assert (length (drop j content) = S (length s)) as Hlen by by rewrite Hs.
    rewrite length_drop in Hlen.
    destruct (TOGGLE_CALL_RE_at (c :: s)) as [[key rest]|] eqn:Hm.
    + apply TOGGLE_CALL_RE_at_spec in Hm.
      exists j. split_and!; [done| |intros i ???; lia].
      split; [done|]. exists rest. rewrite Hs. split; [done|].
      apply match_at_front_length in Hm. simpl in *. lia.
    + assert (drop (S j) content = s) as Hs'.
      { replace (S j) with (j + 1)%nat by lia. by rewrite <- drop_drop, Hs. }
      assert (∀ key e, ¬ match_at content j key e) as Hnone.
      { intros key e (_ & rest & H & _). rewrite Hs in H.
        apply TOGGLE_CALL_RE_at_spec in H. congruence. }
      specialize (IH (S j) ltac:(lia) Hs').
      destruct (search_from s (S j)) as [[key e]|].
      * destruct IH as (i & Hi & Hmatch & Hno). exists i.
        split_and!; [lia|done|].
        intros i' key' e' Hi'. destruct (decide (i' = j)) as [->|]; [done|].
        apply Hno. lia.
      * intros i' key' e' Hi'. destruct (decide (i' = j)) as [->|]; [done|].
        apply IH. lia.
Qed.

(** [exec] answers with the first match at or after [lastIndex] and moves
    [lastIndex] to its end; without a match it answers [null] and resets
    [lastIndex] to 0. *)
Lemma exec_spec content li :
  match TOGGLE_CALL_RE_exec content li with
  | (Some key, li') =>
      ∃ i, (li ≤ i)%nat ∧ match_at content i key li' ∧ no_match_in content li i
  | (None, li') => li' = 0%nat ∧ no_match_in content li (S (length content))
  end.
Proof.
  unfold TOGGLE_CALL_RE_exec. case_decide as Hli.
  - split; [done|]. intros i ???. lia.
  - pose proof (search_from_spec content _ li ltac:(lia) eq_refl) as H.
    by destruct (search_from _ _) as [[key e]|].
Qed.

Lemma first_match_unique content from i key e i' key' e' :
  (from ≤ i)%nat → match_at content i key e → no_match_in content from i →
  (from ≤ i')%nat → match_at content i' key' e' → no_match_in content from i' →
  i = i' ∧ key = key' ∧ e = e'.
Proof.
  intros Hi Hm Hno Hi' Hm' Hno'.
  assert (i = i') as <-.
  { destruct (Nat.lt_trichotomy i i') as [?|[?|?]]; [|done|].
    - destruct (Hno' i key e); [lia|done].
    - destruct (Hno i' key' e'); [lia|done]. }
  split; [done|]. by eapply match_at_fun.
Qed.

Lemma exec_loop_step content li keys :
  exec_loop content li keys =
  match TOGGLE_CALL_RE_exec content li with
  | (Some key, li') => exec_loop content li' (Set_add key keys)
  | (None, li') => (keys, li')
  end.
Proof. funelim (exec_loop content li keys); by rewrite e. Qed.

(** The loop reads the captures of the scan and leaves [lastIndex] at 0. *)
Lemma exec_loop_scan content from found :
  scan content from found →
  ∀ keys, exec_loop content from keys = (add_all found keys, 0%nat).
Proof.
  induction 1 as [from Hno|from i key e found Hi Hm Hno _ IH]; intros keys.
  - rewrite exec_loop_step. pose proof (exec_spec content from) as H.
    destruct (TOGGLE_CALL_RE_exec content from) as [[key|] li'].
    + destruct H as (i & Hi & Hm & _). apply match_at_bounds in Hm as Hb.
      destruct (Hno i key li'); [lia|done].
    + by destruct H as [-> _].
  - rewrite exec_loop_step. pose proof (exec_spec content from) as H.
    destruct (TOGGLE_CALL_RE_exec content from) as [[key'|] li'].
    + destruct H as (i' & Hi' & Hm' & Hno').
      destruct (first_match_unique _ _ _ _ _ _ _ _ Hi Hm Hno Hi' Hm' Hno')
        as (_ & <- & <-).
      by rewrite IH.
    + destruct H as [_ Hno']. apply match_at_bounds in Hm as Hb.
      destruct (Hno' i key e); [lia|done].
Qed.

(** Every text has a scan from every index. *)
Lemma scan_total content from : ∃ found, scan content from found.
Proof.
  remember (length content - from)%nat as n eqn:Hn.
  revert from Hn. induction (lt_wf n) as [n _ IH]; intros from ->.
  pose proof (exec_spec content from) as H.
  destruct (TOGGLE_CALL_RE_exec content from) as [[key|] li'].
  - destruct H as (i & Hi & Hm & Hno). apply match_at_bounds in Hm as Hb.
    destruct (IH (length content - li')%nat ltac:(lia) li' eq_refl) as [found Hf].
    exists (key :: found). by eapply scan_match.
  - destruct H as [_ Hno]. exists []. by apply scan_end.
Qed.

(** A scan can be read off the answers of [exec]. *)
Lemma scan_exec_match content from key e keys :
  TOGGLE_CALL_RE_exec content from = (Some key, e) →
  scan content e keys → scan content from (key :: keys).
Proof.
  intros He Hs. pose proof (exec_spec content from) as H. rewrite He in H.
  destruct H as (i & Hi & Hm & Hno). by eapply scan_match.
Qed.

Lemma scan_exec_end content from lastIndex :
  TOGGLE_CALL_RE_exec content from = (None, lastIndex) → scan content from [].
Proof.
  intros He. pose proof (exec_spec content from) as H. rewrite He in H.
  apply scan_end, H.
Qed.

(** The scan is determined by the text. *)
Lemma scan_fun content from found found' :
  scan content from found → scan content from found' → found = found'.
Proof.
  intros H. revert found'.
  induction H as [from Hno|from i key e found Hi Hm Hno _ IH]; intros found' H'.
  - destruct H' as [|from i key e found' Hi Hm _ _]; [done|].
    apply match_at_bounds in Hm as Hb. destruct (Hno i key e); [lia|done].
  - destruct H' as [from Hno'|from i' key' e' found' Hi' Hm' Hno' Hs'].
    + apply match_at_bounds in Hm as Hb. destruct (Hno' i key e); [lia|done].
    + destruct (first_match_unique _ _ _ _ _ _ _ _ Hi Hm Hno Hi' Hm' Hno')
        as (_ & <- & <-).
      f_equal. by apply IH.
Qed.

(** ** Sets and aggregation *)

Lemma elem_of_Set_add k x s : x ∈ Set_add k s ↔ x = k ∨ x ∈ s.
Proof.
  unfold Set_add. case_decide as Hk.
  - split; [by right|]. by intros [->|].
  - rewrite elem_of_app, list_elem_of_singleton. tauto.
Qed.

Lemma NoDup_Set_add k s : NoDup s → NoDup (Set_add k s).
Proof.
  intros Hs. unfold Set_add. case_decide as Hk; [done|].
  apply NoDup_app. split_and!; [done| |apply NoDup_singleton].
  intros x Hx ->%list_elem_of_singleton. done.
Qed.

Lemma elem_of_add_all keys used x :
  x ∈ add_all keys used ↔ x ∈ keys ∨ x ∈ used.
Proof.
  unfold add_all. revert used.
  induction keys as [|k keys IH]; intros used; simpl.
  - rewrite elem_of_nil. tauto.
  - rewrite IH, elem_of_Set_add, elem_of_cons. tauto.
Qed.

Lemma NoDup_add_all keys used : NoDup used → NoDup (add_all keys used).
Proof.
  unfold add_all. revert used.
  induction keys as [|k keys IH]; intros used Hu; simpl; [done|].
  by apply IH, NoDup_Set_add.
Qed.

(** One file: the keys are the captures of the scan, each once, and the
    shared expression is left ready for the next file. *)
Lemma extractToggleKeysFromFile_scan content li :
  ∃ found, scan content li found
           ∧ extractToggleKeysFromFile content li = (add_all found [], 0%nat).
Proof.
  destruct (scan_total content li) as [found Hf]. exists found.
  split; [done|]. by apply exec_loop_scan.
Qed.

Lemma extractToggleKeysFromFile_NoDup content li :
  NoDup (extractToggleKeysFromFile content li).1.
Proof.
  destruct (extractToggleKeysFromFile_scan content li) as (found & _ & ->).
  apply NoDup_add_all, NoDup_nil_2.
Qed.

Lemma extractToggleKeysFromFile_lastIndex content li :
  (extractToggleKeysFromFile content li).2 = 0%nat.
Proof.
  by destruct (extractToggleKeysFromFile_scan content li) as (found & _ & ->).
Qed.

Lemma scan_files_spec files used :
  NoDup used →
  (scan_files files (used, 0%nat)).2 = 0%nat
  ∧ NoDup (scan_files files (used, 0%nat)).1
  ∧ ∀ k, k ∈ (scan_files files (used, 0%nat)).1
         ↔ k ∈ used ∨ ∃ f, f ∈ files ∧ k ∈ keys_of_file f.
Proof.
  unfold scan_files. revert used.
  induction files as [|f files IH]; intros used Hused; simpl.
  - split_and!; [done..|]. intros k. split; [by left|].
    intros [?|(f & Hf & _)]; [done|]. by apply elem_of_nil in Hf.
  - pose proof (extractToggleKeysFromFile_lastIndex (file_content f) 0) as Hli.
    destruct (extractToggleKeysFromFile (file_content f) 0) as [keys li'] eqn:He.
    simpl in Hli. subst li'.
    assert (scan_file (used, 0%nat) f = (add_all keys used, 0%nat)) as ->.
    { unfold scan_file. simpl. by rewrite He. }
    destruct (IH (add_all keys used) (NoDup_add_all _ _ Hused)) as (H1 & H2 & H3).
    split_and!; [done..|]. intros k. rewrite H3, elem_of_add_all.
    unfold keys_of_file. split.
    + intros [[Hk|Hk]|(f' & Hf' & Hk)].
      * right. exists f. rewrite He. split; [left|done].
      * by left.
      * right. exists f'. split; [by right|done].
    + intros [Hk|(f' & Hf' & Hk)]; [by left; right|].
      apply elem_of_cons in Hf' as [->|Hf'].
      * rewrite He in Hk. by left; left.
      * right. by exists f'.
Qed.

Lemma elem_of_extractAllUsedKeys root entries k :
  k ∈ extractAllUsedKeys root entries
  ↔ ∃ f, f ∈ walkJsFiles (SRC_DIR root) entries ∧ k ∈ keys_of_file f.
Proof.
  unfold extractAllUsedKeys.
  destruct (scan_files_spec (walkJsFiles (SRC_DIR root) entries) []
              NoDup_nil_2) as (_ & _ & H).
  rewrite H, elem_of_nil. tauto.
Qed.

Lemma NoDup_extractAllUsedKeys root entries :
  NoDup (extractAllUsedKeys root entries).
Proof.
  unfold extractAllUsedKeys.
  by destruct (scan_files_spec (walkJsFiles (SRC_DIR root) entries) []
                 NoDup_nil_2) as (_ & ? & _).
Qed.

(** ** The comparison *)

Lemma Set_has_spec defined k : Set_has defined k = true ↔ JStr k ∈ defined.
Proof.
  unfold Set_has. rewrite existsb_exists. split.
  - intros (v & Hv%list_elem_of_In & Hs). destruct v; simpl in Hs; try done.
    by apply bool_decide_eq_true in Hs as ->.
  - intros H. exists (JStr k). split; [by apply list_elem_of_In|].
    simpl. by apply bool_decide_eq_true.
Qed.

Lemma elem_of_unknown_keys defined used k :
  k ∈ unknown_keys defined used ↔ k ∈ used ∧ JStr k ∉ defined.
Proof.
  unfold unknown_keys. rewrite list_elem_of_In, filter_In, <- list_elem_of_In.
  rewrite negb_true_iff, <- Set_has_spec, not_true_iff_false. done.
Qed.

Lemma NoDup_unknown_keys defined used :
  NoDup used → NoDup (unknown_keys defined used).
Proof.
  intros H. apply NoDup_ListNoDup, List.NoDup_filter, NoDup_ListNoDup, H.
Qed.

Lemma occurrences_NoDup k l : NoDup l → k ∈ l → occurrences k l = 1%nat.
Proof.
  unfold occurrences. induction 1 as [|x l Hx Hl IH]; intros Hk; simpl.
  - by apply elem_of_nil in Hk.
  - case_bool_decide as Hxk; simpl.
    + subst x. f_equal.
      assert (List.filter (λ x, bool_decide (x = k)) l = []) as ->; [|done].
      clear IH Hl Hk. induction l as [|y l IH]; simpl; [done|].
      apply not_elem_of_cons in Hx as [Hne Hx].
      rewrite bool_decide_eq_false_2 by done. by apply IH.
    + apply IH. apply elem_of_cons in Hk as [->|]; done.
Qed.

(** ** Discovery *)

(** The extension test accepts the names that end in a script extension. *)
Lemma js_extension_test_spec name :
  js_extension_test name = true
  ↔ ∃ stem ext, ext ∈ JS_EXTENSIONS ∧ name = stem ++ ext.
Proof.
  split.
  - induction name as [|c name IH]; simpl.
    + intros H. by vm_compute in H.
    + intros [H%bool_decide_eq_true|H]%orb_true_iff.
      * by exists [], (c :: name).
      * destruct (IH H) as (stem & ext & Hext & ->).
        by exists (c :: stem), ext.
  - intros (stem & ext & Hext & ->).
    induction stem as [|c stem IH].
    + unfold JS_EXTENSIONS in Hext.
      repeat (apply elem_of_cons in Hext as [->|Hext]; [by vm_compute|]).
      by apply elem_of_nil in Hext.
    + simpl. by rewrite IH, orb_true_r.
Qed.

Lemma entry_nested_ind (P : entry → Prop) :
  (∀ name content, P (File name content)) →
  (∀ name children, Forall P children → P (Dir name children)) →
  (∀ name, P (Other name)) →
  ∀ e, P e.
Proof.
  intros HF HD HO. fix IH 1. intros [name content|name children|name].
  - apply HF.
  - apply HD. induction children as [|c children IHc]; constructor.
    + apply IH.
    + apply IHc.
  - apply HO.
Qed.

Lemma elem_of_flat_map {A B} (f : A → list B) l y :
  y ∈ flat_map f l ↔ ∃ x, x ∈ l ∧ y ∈ f x.
Proof.
  rewrite list_elem_of_In, in_flat_map. split.
  - intros (x & Hx & Hy). exists x. by rewrite !list_elem_of_In.
  - intros (x & Hx & Hy). exists x. by rewrite <- !list_elem_of_In.
Qed.

Lemma discovered_split dir entries f :
  discovered dir entries f ↔ ∃ e, e ∈ entries ∧ discovered_in dir e f.
Proof.
  split.
  - destruct 1 as [dir entries name content Hin Hext
                  |dir entries name children f Hin Hne Hd].
    + by exists (File name content).
    + by exists (Dir name children).
  - intros ([name content|name children|name] & Hin & H); simpl in H.
    + destruct H as [Hext ->]. by apply discovered_here.
    + destruct H as [Hne Hd]. by eapply discovered_below.
    + done.
Qed.

Lemma elem_of_walk_entry e :
  ∀ dir f, f ∈ walk_entry dir e ↔ discovered_in dir e f.
Proof.
  induction e as [name content|name children IH|name] using entry_nested_ind;
    intros dir f; simpl.
  - destruct (js_extension_test name).
    + rewrite list_elem_of_singleton. split; [done|]. by intros [_ ->].
    + rewrite elem_of_nil. split; [done|]. by intros [? _].
  - case_decide as Hne.
    + rewrite elem_of_flat_map, discovered_split. split.
      * intros (c & Hc & Hf). split; [done|]. exists c. split; [done|].
        rewrite Forall_forall in IH. by apply IH.
      * intros (_ & c & Hc & Hf). exists c. split; [done|].
        rewrite Forall_forall in IH. by apply IH.
    + rewrite elem_of_nil. split; [done|]. by intros [? _].
  - apply elem_of_nil.
Qed.

(** The generator yields exactly the discovered files. *)
Lemma elem_of_walkJsFiles dir entries f :
  f ∈ walkJsFiles dir entries ↔ discovered dir entries f.
Proof.
  unfold walkJsFiles. rewrite elem_of_flat_map, discovered_split.
  by setoid_rewrite elem_of_walk_entry.
Qed.

Lemma walk_entry_same_outside_vendored :
  ∀ e e', same_outside_vendored e e' →
  ∀ dir, walk_entry dir e = walk_entry dir e'.
Proof.
  fix IH 3. intros e e' H dir.
  destruct H as [name content|name|children children'|name children children' H];
    simpl; try done.
  case_decide; [|done]. generalize (join dir name). intros d.
    induction H as [|c c' l l' Hc Hl IHl]; simpl; [done|].
    by rewrite (IH c c' Hc d), IHl.
Qed.

Lemma walkJsFiles_same_outside_vendored dir entries entries' :
  Forall2 same_outside_vendored entries entries' →
  walkJsFiles dir entries = walkJsFiles dir entries'.
Proof.
  unfold walkJsFiles. induction 1 as [|e e' l l' He Hl IH]; simpl; [done|].
  by rewrite (walk_entry_same_outside_vendored e e' He dir), IH.
Qed.

(** ** Order of traversal *)

Lemma walkJsFiles_reordered entries entries' :
  reordered entries entries' →
  ∀ dir, walkJsFiles dir entries ≡ₚ walkJsFiles dir entries'.
Proof.
  unfold walkJsFiles.
  induction 1 using reordered_mut with
    (P0 := λ e e' _, ∀ dir, walk_entry dir e ≡ₚ walk_entry dir e');
    intros dir; simpl; try done.
  - by rewrite IHreordered, IHreordered0.
  - rewrite !(assoc_L (++)). f_equiv. apply Permutation_app_comm.
  - by rewrite IHreordered1.
  - case_decide; [|done]. apply IHreordered.
Qed.

(** ** The manifest and the run *)

Lemma loadManifest_try_cases mf :
  loadManifest_try mf =
  match mf with
  | None => Throw ReadError
  | Some raw =>
    match JSON_parse raw with
    | Throw e => Throw e
    | Normal data =>
      if Array_isArray data then Normal (elements_of data)
      else match Object_keys data with
           | Throw e => Throw e
           | Normal keys => Normal (map JStr keys)
           end
    end
  end.
Proof.
  unfold loadManifest_try. destruct mf as [raw|]; simpl; [|done].
  destruct (JSON_parse raw) as [data|e]; simpl; [|done].
  destruct (Array_isArray data); [done|]. by destruct (Object_keys data).
Qed.

Lemma Object_keys_throws data e :
  Object_keys data = Throw e ↔ data = JNull ∧ e = TypeError.
Proof.
  destruct data; simpl; split; try done; try by intros [? _].
  - by intros [= <-].
  - by intros [_ ->].
Qed.

(** The manifest fails to load exactly when the file cannot be read, is
    not JSON, or holds [null]. *)
Lemma loadManifest_try_throws mf e :
  loadManifest_try mf = Throw e ↔
    (mf = None ∧ e = ReadError)
    ∨ (∃ raw, mf = Some raw ∧ JSON_parse raw = Throw e)
    ∨ (∃ raw, mf = Some raw ∧ JSON_parse raw = Normal JNull ∧ e = TypeError).
Proof.
  rewrite loadManifest_try_cases. split.
  - destruct mf as [raw|]; [|intros [= <-]; by left].
    destruct (JSON_parse raw) as [data|e'] eqn:Hp.
    + destruct (Array_isArray data); [done|].
      destruct (Object_keys data) as [keys|e'] eqn:Hk; [done|].
      intros [= ->]. apply Object_keys_throws in Hk as [-> ->].
      right; right. by exists raw.
    + intros [= ->]. right; left. by exists raw.
  - intros [[-> ->]|[(raw & -> & Hp)|(raw & -> & Hp & ->)]];
      [done|by rewrite Hp..].
Qed.

Lemma main_loaded w defined entries :
  loadManifest_try (manifest_file w) = Normal defined →
  src w = Some entries →
  main w =
  (let unknown := unknown_keys defined (extractAllUsedKeys (ROOT w) entries) in
   if decide (0 < length unknown)%nat then ([console_warn unknown], 0%Z)
   else ([console_log], 0%Z)).
Proof.
  intros H Hsrc. unfold main, loadManifest. rewrite H, Hsrc. simpl.
  by case_decide.
Qed.

Lemma main_unreadable w defined :
  loadManifest_try (manifest_file w) = Normal defined →
  src w = None →
  main w = ([uncaught_exception ReadError], 1%Z).
Proof. intros H Hsrc. unfold main, loadManifest. by rewrite H, Hsrc. Qed.

Lemma main_failed w e :
  loadManifest_try (manifest_file w) = Throw e →
  main w = ([console_error e], 2%Z).
Proof. intros H. unfold main, loadManifest. by rewrite H. Qed.

Lemma main_status w :
  (main w).2 =
  match loadManifest_try (manifest_file w), src w with
  | Throw _, _ => 2%Z
  | Normal _, None => 1%Z
  | Normal _, Some _ => 0%Z
  end.
Proof.
  destruct (loadManifest_try (manifest_file w)) as [defined|e] eqn:H.
  - destruct (src w) as [entries|] eqn:Hsrc.
    + rewrite (main_loaded w defined entries H Hsrc). simpl. by case_decide.
    + by rewrite (main_unreadable w defined H Hsrc).
  - by rewrite (main_failed w e H).
Qed.


(** ** Exit status (C1) *)



(** ** Reporting (C9) *)




(** ** Extraction (C2) *)

(** C2, as stated, fails: the call on a template literal with a
    substitution yields a key, although its argument is no string literal
    in the sense of the claim. *)
Lemma template_with_substitution_is_extracted :
  str "a${b}" ∈ (extractToggleKeysFromFile template_call 0).1
  ∧ ¬ literal_call template_call (str "a${b}").
Proof.
  split.
  - vm_compute. left.
  - intros (before & ws1 & ws2 & q & after & Heq & _ & _ & Hq & _ & Hsub).
    assert (q ∈ template_call) as Hin.
    { rewrite Heq. do 5 (apply elem_of_app; right).
      apply elem_of_app. left. by apply list_elem_of_singleton. }
    assert (Forall (λ c, is_quote c = true → c = GRAVE_ACCENT) template_call)
      as Hall.
    { vm_compute. repeat constructor; (discriminate || reflexivity). }
    rewrite Forall_forall in Hall.
    apply (Hsub (Hall q Hin Hq) (str "a") (str "b}")). reflexivity.
Qed.

(** C2, amended: for every file content the keys returned are exactly the
    captures of the matches that one scan of the text from its start meets,
    each key once, where a match is the hook name, optional white space, an
    opening parenthesis, optional white space, one of the three quote
    characters, a non-empty run of characters none of which is a quote
    character (captured verbatim), and again one of the three quote
    characters, and where each match is the first that starts at or after
    the end of the match before.  The three calls of the example yield
    exactly [known] and [unknown1]. *)
Theorem extracted_keys_are_scanned (content : jsstring) :
  (∃ found, scan content 0 found)
  ∧ (∀ found, scan content 0 found →
       extractToggleKeysFromFile content 0 = (add_all found [], 0%nat)
       ∧ ∀ k, k ∈ (extractToggleKeysFromFile content 0).1 ↔ k ∈ found)
  ∧ NoDup (extractToggleKeysFromFile content 0).1
  ∧ (extractToggleKeysFromFile three_calls 0).1
    = [str "known"; str "unknown1"].
Proof.
  split_and!.
  - apply scan_total.
  - intros found Hs. unfold extractToggleKeysFromFile.
    rewrite (exec_loop_scan _ _ _ Hs). split; [done|]. intros k. simpl.
    rewrite elem_of_add_all, elem_of_nil. tauto.
  - apply extractToggleKeysFromFile_NoDup.
  - vm_compute. reflexivity.
Qed.

Lemma extracted_keys_are_scanned_witness :
  scan three_calls 0 [str "known"; str "unknown1"]
  ∧ extractToggleKeysFromFile three_calls 0
    = ([str "known"; str "unknown1"], 0%nat).
Proof.
  assert (scan three_calls 0 [str "known"; str "unknown1"]) as Hs.
  { eapply scan_exec_match; [vm_compute; reflexivity|].
    eapply scan_exec_match; [vm_compute; reflexivity|].
    eapply scan_exec_end. vm_compute. reflexivity. }
  split; [exact Hs|].
  exact (proj1 (proj1 (proj2 (extracted_keys_are_scanned three_calls)) _ Hs)).
Defined.

(** What the expression does with some other calls: the closing quote need
    not be the opening one, any quote character ends the key, an empty
    literal is no match, a call that begins inside a match is passed over,
    and a literal that heads a longer expression is taken. *)
Example mismatched_quotes_match :
  (extractToggleKeysFromFile
     (HOOK_NAME ++ str "('a" ++ [QUOTATION_MARK] ++ str ")") 0).1 = [str "a"].
Proof. vm_compute. reflexivity. Qed.

Example later_quote_ends_the_key :
  (extractToggleKeysFromFile (call_with QUOTATION_MARK (str "it's")) 0).1
  = [str "it"].
Proof. vm_compute. reflexivity. Qed.

Example empty_literal_yields_nothing :
  (extractToggleKeysFromFile (call_with APOSTROPHE []) 0).1 = [].
Proof. vm_compute. reflexivity. Qed.

Example call_inside_a_key_is_skipped :
  (extractToggleKeysFromFile
     (HOOK_NAME ++ str "('" ++ call_with QUOTATION_MARK (str "x")) 0).1
  = [HOOK_NAME ++ str "("].
Proof. vm_compute. reflexivity. Qed.

Example concatenation_yields_its_head :
  (extractToggleKeysFromFile
     (HOOK_NAME ++ str "('feature_' + name)") 0).1 = [str "feature_"].
Proof. vm_compute. reflexivity. Qed.

(** ** Manifest shapes (C3) *)

Lemma array_index_name k n : array_index k = Some n → index_name n = k.
Proof.
  unfold array_index. intros H.
  destruct (forallb is_digit k); simpl in H; [|done].
  case_bool_decide as Hk; simpl in H; [|done].
  destruct (digits_value k <? 4294967295); by simplify_eq.
Qed.

Lemma elem_of_own_keys_order names k : k ∈ own_keys_order names ↔ k ∈ names.
Proof.
  unfold own_keys_order.
  rewrite elem_of_app, list_elem_of_fmap, list_elem_of_filter. split.
  - intros [(n & -> & Hn)|[_ ?]]; [|done].
    rewrite merge_sort_Permutation in Hn.
    apply list_elem_of_omap in Hn as (k & Hk & Hidx).
    by rewrite (array_index_name k n Hidx).
  - intros Hk. destruct (array_index k) as [n|] eqn:Hidx; [left|by right].
    exists n. split; [by rewrite (array_index_name k n Hidx)|].
    rewrite merge_sort_Permutation. apply list_elem_of_omap. by exists k.
Qed.

(** C3: the manifest is parsed as JSON; the elements of an array are the
    key set, the property names of an object are the key set, and the
    manifests written as the array of [a] and [b] and as the object with
    the names [a] and [b] give the same run for every source tree. *)
Theorem manifest_shapes (raw : jsstring) (data : json) :
  JSON_parse raw = Normal data →
  (∀ items, data = JArr items →
     loadManifest (Some raw) = ([], Continue items))
  ∧ (∀ members, data = JObj members →
       ∃ names, loadManifest (Some raw) = ([], Continue (map JStr names))
                ∧ ∀ k, k ∈ names ↔ k ∈ members.*1)
  ∧ (∀ root tree,
       main (World root (Some manifest_array_ab) tree)
       = main (World root (Some manifest_object_ab) tree)).
Proof.
  intros Hp. split_and!.
  - intros items ->. unfold loadManifest.
    by rewrite loadManifest_try_cases, Hp.
  - intros members ->. exists (own_keys_order members.*1). split.
    + unfold loadManifest. by rewrite loadManifest_try_cases, Hp.
    + apply elem_of_own_keys_order.
  - intros root tree. unfold main. cbn [manifest_file ROOT src].
    assert (loadManifest (Some manifest_array_ab)
            = loadManifest (Some manifest_object_ab)) as ->; [|done].
    vm_compute. reflexivity.
Qed.

Lemma manifest_shapes_witness :
  loadManifest (Some manifest_array_ab)
  = ([], Continue [JStr (str "a"); JStr (str "b")]).
Proof.
  refine (proj1 (manifest_shapes manifest_array_ab
                   (JArr [JStr (str "a"); JStr (str "b")]) _) _ eq_refl).
  vm_compute. reflexivity.
Defined.

(** ** Set difference (C4) *)

(** C4: for every manifest key set and every used key set, the run reports
    a key as unknown exactly when the key is in the used set and not in the
    manifest set; and nothing else enters the result: two runs whose used
    sets have the same members and whose manifest sets hold the same
    strings report the same keys. *)
Theorem unknown_is_set_difference (w : world) (defined : list json)
    (used : list jsstring) :
  loadManifest_try (manifest_file w) = Normal defined →
  extractAllUsedKeys_run (ROOT w) (src w) = Normal used →
  (∀ k, reports w k ↔ k ∈ used ∧ JStr k ∉ defined)
  ∧ (∀ w' defined' used',
       loadManifest_try (manifest_file w') = Normal defined' →
       extractAllUsedKeys_run (ROOT w') (src w') = Normal used' →
       (∀ k, k ∈ used ↔ k ∈ used') →
       (∀ k, JStr k ∈ defined ↔ JStr k ∈ defined') →
       ∀ k, reports w k ↔ reports w' k).
Proof.
  assert (∀ w defined used,
    loadManifest_try (manifest_file w) = Normal defined →
    extractAllUsedKeys_run (ROOT w) (src w) = Normal used →
    ∀ k, reports w k ↔ k ∈ used ∧ JStr k ∉ defined) as Hmain.
  { clear. intros w defined used Hm Hused k.
    unfold extractAllUsedKeys_run in Hused.
    destruct (src w) as [entries|] eqn:Hsrc; [|done]. injection Hused as <-.
    unfold reports. rewrite (main_loaded w defined entries Hm Hsrc). simpl.
    rewrite <- elem_of_unknown_keys.
    destruct (unknown_keys defined _) as [|k' l] eqn:Hu; simpl.
    - split; [|by intros ?%elem_of_nil].
      intros (reported & Hin%list_elem_of_singleton & _). discriminate.
    - split.
      + intros (reported & Hin%list_elem_of_singleton & Hk).
        by injection Hin as ->.
      + intros Hk. exists (k' :: l). split; [by left|done]. }
  intros Hm Hused. split; [by apply Hmain|].
  intros w' defined' used' Hm' Hused' Hu Hd k.
  by rewrite (Hmain w defined used), (Hmain w' defined' used'), Hu, Hd.
Qed.

Lemma unknown_is_set_difference_witness :
  reports sample_world (str "exmapleFeature").
Proof.
  refine (proj2 (proj1 (unknown_is_set_difference sample_world
    [JStr (str "exampleFeature"); JStr (str "anotherToggle")]
    [str "exampleFeature"; str "exmapleFeature"] _ _)
    (str "exmapleFeature")) _).
  - vm_compute. reflexivity.
  - vm_compute. reflexivity.
  - split; [right; left|].
    intros H. repeat (apply elem_of_cons in H as [H|H]; [discriminate|]).
    by apply elem_of_nil in H.
Defined.

(** ** Deduplication (C5) *)

Lemma referenced_used root entries k :
  referenced root entries k → k ∈ extractAllUsedKeys root entries.
Proof.
  intros (f & found & Hf & Hs & Hk). apply elem_of_extractAllUsedKeys.
  exists f. split; [done|]. unfold keys_of_file, extractToggleKeysFromFile.
  rewrite (exec_loop_scan _ _ _ Hs). simpl. apply elem_of_add_all. by left.
Qed.

(** C5: no key is twice in the aggregated used-key set, nor in the warning
    of a run; a key that is referenced, in however many files and calls, is
    in the used-key set exactly once and, when the manifest lacks it, the
    run writes one warning that lists the key exactly once. *)
Theorem keys_are_deduplicated (root : jsstring) (entries : list entry) :
  let used := extractAllUsedKeys root entries in
  NoDup used
  ∧ (∀ k, referenced root entries k → occurrences k used = 1%nat)
  ∧ (∀ w defined,
       ROOT w = root → src w = Some entries →
       loadManifest_try (manifest_file w) = Normal defined →
       (∀ reported, console_warn reported ∈ (main w).1 → NoDup reported)
       ∧ (∀ k, referenced root entries k → JStr k ∉ defined →
               ∃ reported, (main w).1 = [console_warn reported]
                           ∧ occurrences k reported = 1%nat)).
Proof.
  intros used. pose proof (NoDup_extractAllUsedKeys root entries) as Hnd.
  split_and!; [done| |].
  - intros k Hk%referenced_used. by apply occurrences_NoDup.
  - intros w defined Hroot Hsrc Hm.
    rewrite (main_loaded w defined entries Hm Hsrc), Hroot. simpl.
    fold used. pose proof (NoDup_unknown_keys defined used Hnd) as Hndu.
    split.
    + intros reported Hin. case_decide; simpl in Hin;
        apply list_elem_of_singleton in Hin; [|done]. by injection Hin as ->.
    + intros k Hk%referenced_used Hd.
      assert (k ∈ unknown_keys defined used) as Hin
        by by apply elem_of_unknown_keys.
      exists (unknown_keys defined used). split.
      * destruct (unknown_keys defined used); [|done].
        by apply elem_of_nil in Hin.
      * by apply occurrences_NoDup.
Qed.

Lemma keys_are_deduplicated_witness :
  ∃ reported, (main sample_world).1 = [console_warn reported]
              ∧ occurrences (str "exmapleFeature") reported = 1%nat.
Proof.
  refine (proj2 (proj2 (proj2 (keys_are_deduplicated (str "/repo") sample_tree))
                  sample_world
                  [JStr (str "exampleFeature"); JStr (str "anotherToggle")]
                  eq_refl eq_refl _) (str "exmapleFeature") _ _).
  - vm_compute. reflexivity.
  - exists (SourceFile (str "/repo/src/utils/menu.ts")
              (call_with QUOTATION_MARK (str "exmapleFeature") ++ str "; "
               ++ call_with APOSTROPHE (str "exampleFeature"))),
           [str "exmapleFeature"; str "exampleFeature"].
    split_and!.
    + vm_compute. right. left.
    + eapply scan_exec_match; [vm_compute; reflexivity|].
      eapply scan_exec_match; [vm_compute; reflexivity|].
      eapply scan_exec_end. vm_compute. reflexivity.
    + left.
  - intros H. repeat (apply elem_of_cons in H as [H|H]; [discriminate|]).
    by apply elem_of_nil in H.
Defined.

(** ** Vendored code (C6) *)

Lemma scan_files_only_files root entries entries' :
  walkJsFiles (SRC_DIR root) entries = walkJsFiles (SRC_DIR root) entries' →
  extractAllUsedKeys root entries = extractAllUsedKeys root entries'.
Proof. unfold extractAllUsedKeys. by intros ->. Qed.

(** C6: the walk yields exactly the files that are reached from the source
    directory through directories not named [node_modules] and whose name
    ends in [.js], [.jsx], [.ts] or [.tsx]; whatever lies below a directory
    named [node_modules], at any depth, changes neither the files found nor
    the used-key set. *)
Theorem vendored_code_is_excluded (root : jsstring) (entries : list entry) :
  (∀ f, f ∈ walkJsFiles (SRC_DIR root) entries
        ↔ discovered (SRC_DIR root) entries f)
  ∧ (∀ name, js_extension_test name = true
             ↔ ∃ stem ext, ext ∈ JS_EXTENSIONS ∧ name = stem ++ ext)
  ∧ (∀ entries', Forall2 same_outside_vendored entries entries' →
       walkJsFiles (SRC_DIR root) entries = walkJsFiles (SRC_DIR root) entries'
       ∧ extractAllUsedKeys root entries = extractAllUsedKeys root entries').
Proof.
  split_and!; [intros f; apply elem_of_walkJsFiles
              |apply js_extension_test_spec|].
  intros entries' H.
  pose proof (walkJsFiles_same_outside_vendored (SRC_DIR root) _ _ H) as Hw.
  split; [done|]. by apply scan_files_only_files.
Qed.

Lemma vendored_code_is_excluded_witness :
  extractAllUsedKeys (str "/repo")
    [ Dir (str "lib")
        [ Dir NODE_MODULES
            [ File (str "index.js") (call_with APOSTROPHE (str "vendored")) ];
          File (str "a.js") (call_with APOSTROPHE (str "own")) ] ]
  = extractAllUsedKeys (str "/repo")
      [ Dir (str "lib")
          [ Dir NODE_MODULES [];
            File (str "a.js") (call_with APOSTROPHE (str "own")) ] ].
Proof.
  refine (proj2 (proj2 (proj2 (vendored_code_is_excluded (str "/repo") _)) _ _)).
  repeat first [ apply sov_vendored | apply sov_file | apply sov_dir
               | constructor ].
Defined.

(** ** The hook (C7) *)

(** C7: the hook returns the value of the entitlements mapping for a key
    that is an own property of the mapping, and the default value when the
    key is absent or the mapping is [null] or [undefined]; the default
    value is [true] unless the caller passes one. *)
Theorem hook_lookup (store : state) (toggleKey : jsstring)
    (opts : option options) :
  (∀ own v, entitlements (common store) = SlotObject own →
            own !! toggleKey = Some v →
            useReleaseToggle store toggleKey opts = v)
  ∧ (∀ own, entitlements (common store) = SlotObject own →
            own !! toggleKey = None →
            useReleaseToggle store toggleKey opts = defaultValue_of opts)
  ∧ (entitlements (common store) = SlotNull
     ∨ entitlements (common store) = SlotUndefined →
     useReleaseToggle store toggleKey opts = defaultValue_of opts)
  ∧ defaultValue_of None = VBool true
  ∧ (∀ a, defaultValue_of (Some (Options VUndefined a)) = VBool true)
  ∧ (∀ v a, v ≠ VUndefined → defaultValue_of (Some (Options v a)) = v).
Proof.
  unfold useReleaseToggle, useSelector. split_and!.
  - intros own v -> Hv. simpl. by rewrite Hv.
  - intros own -> Hv. simpl. by rewrite Hv.
  - by intros [-> | ->].
  - done.
  - done.
  - intros v a Hv. by destruct v.
Qed.

Lemma hook_lookup_witness :
  useReleaseToggle sample_store (str "exampleFeature") None = VBool false
  ∧ useReleaseToggle sample_store (str "anotherToggle") None = VBool true
  ∧ useReleaseToggle (State (CommonState SlotNull))
      (str "exampleFeature") (Some (Options (VBool false) VUndefined))
    = VBool false.
Proof.
  split_and!.
  - refine (proj1 (hook_lookup sample_store (str "exampleFeature") None)
              {[ str "exampleFeature" := VBool false ]} _ eq_refl _).
    vm_compute. reflexivity.
  - refine (proj1 (proj2 (hook_lookup sample_store (str "anotherToggle") None))
              {[ str "exampleFeature" := VBool false ]} eq_refl _).
    vm_compute. reflexivity.
  - refine (proj1 (proj2 (proj2 (hook_lookup (State (CommonState SlotNull))
              (str "exampleFeature")
              (Some (Options (VBool false) VUndefined))))) _).
    by left.
Defined.

(** ** Order of traversal (C8) *)

Lemma extractAllUsedKeys_reordered root entries entries' :
  reordered entries entries' →
  extractAllUsedKeys root entries ≡ₚ extractAllUsedKeys root entries'.
Proof.
  intros H. apply NoDup_Permutation; [apply NoDup_extractAllUsedKeys..|].
  intros k. rewrite !elem_of_extractAllUsedKeys.
  by setoid_rewrite (walkJsFiles_reordered _ _ H (SRC_DIR root)).
Qed.

Lemma unknown_keys_Permutation defined used used' :
  NoDup used → used ≡ₚ used' →
  unknown_keys defined used ≡ₚ unknown_keys defined used'.
Proof.
  intros Hnd Hp. apply NoDup_Permutation.
  - by apply NoDup_unknown_keys.
  - apply NoDup_unknown_keys. by rewrite <- Hp.
  - intros k. by rewrite !elem_of_unknown_keys, Hp.
Qed.

(** C8: a run is a function of the manifest file and the source tree, so
    two runs on the same inputs agree; and the order in which directories
    list their entries changes neither the used-key set nor the unknown-key
    set, nor the exit status, nor what is reported. *)
Theorem run_is_order_independent (w w' : world) :
  ROOT w = ROOT w' → manifest_file w = manifest_file w' →
  (src w = src w' → main w = main w')
  ∧ (∀ entries entries',
       src w = Some entries → src w' = Some entries' →
       reordered entries entries' →
       extractAllUsedKeys (ROOT w) entries ≡ₚ extractAllUsedKeys (ROOT w') entries'
       ∧ (∀ defined,
            unknown_keys defined (extractAllUsedKeys (ROOT w) entries)
            ≡ₚ unknown_keys defined (extractAllUsedKeys (ROOT w') entries'))
       ∧ (main w).2 = (main w').2
       ∧ Forall2 same_report (main w).1 (main w').1).
Proof.
  intros Hroot Hm. split.
  - intros Hsrc. destruct w, w'; simpl in *. by subst.
  - intros entries entries' Hsrc Hsrc' Hre. rewrite <- Hroot.
    pose proof (extractAllUsedKeys_reordered (ROOT w) _ _ Hre) as Hused.
    assert (∀ defined,
      unknown_keys defined (extractAllUsedKeys (ROOT w) entries)
      ≡ₚ unknown_keys defined (extractAllUsedKeys (ROOT w) entries')) as Hun.
    { intros defined. apply unknown_keys_Permutation; [|done].
      apply NoDup_extractAllUsedKeys. }
    split_and!; [done..| |].
    + by rewrite !main_status, Hm, Hsrc, Hsrc'.
    + destruct (loadManifest_try (manifest_file w)) as [defined|e] eqn:Hl.
      * rewrite (main_loaded w defined entries Hl Hsrc).
        rewrite Hm in Hl. rewrite (main_loaded w' defined entries' Hl Hsrc').
        rewrite <- Hroot. simpl. specialize (Hun defined).
        apply Permutation_length in Hun as Hlen. rewrite <- Hlen.
        case_decide; simpl; repeat constructor. done.
      * rewrite (main_failed w e Hl).
        rewrite Hm in Hl. rewrite (main_failed w' e Hl).
        by repeat constructor.
Qed.

Lemma run_is_order_independent_witness :
  (main sample_world).2
  = (main (World (str "/repo") (Some manifest_repo)
             (Some sample_tree_swapped))).2.
Proof.
  refine (proj1 (proj2 (proj2 (proj2
    (run_is_order_independent sample_world
       (World (str "/repo") (Some manifest_repo) (Some sample_tree_swapped))
       eq_refl eq_refl) sample_tree sample_tree_swapped eq_refl eq_refl _)))).
  apply reordered_swap.
Defined.

(** ** The fatal path (C10) *)

(** C10: the run takes the fatal path exactly when a step of the [try]
    block throws, that is when reading the file, parsing it, or listing
    the keys of the parsed value throws, and the last happens for [null]
    only.  A manifest that parses to a number gives the empty key set, and
    one that parses to a string gives the indices of its characters. *)
Theorem fatal_path_of_loadManifest (manifest : option jsstring) :
  ((loadManifest manifest).2 = Exit 2 ↔
     readFileSync manifest = Throw ReadError
     ∨ (∃ raw e, manifest = Some raw ∧ JSON_parse raw = Throw e)
     ∨ (∃ raw data e, manifest = Some raw ∧ JSON_parse raw = Normal data
                      ∧ Array_isArray data = false
                      ∧ Object_keys data = Throw e))
  ∧ (∀ data, (∃ e, Object_keys data = Throw e) ↔ data = JNull)
  ∧ (∀ root tree,
       main (World root (Some (str "null")) tree)
       = ([console_error TypeError], 2%Z))
  ∧ (∀ raw numeral, manifest = Some raw →
       JSON_parse raw = Normal (JNum numeral) →
       loadManifest manifest = ([], Continue []))
  ∧ (∀ raw s, manifest = Some raw →
       JSON_parse raw = Normal (JStr s) →
       loadManifest manifest
       = ([], Continue (map JStr (index_name ∘ N.of_nat <$> seq 0 (length s))))).
Proof.
  split_and!.
  - unfold loadManifest.
    destruct (loadManifest_try manifest) as [keys|e] eqn:H; simpl.
    + split; [done|]. intros Hbad. exfalso.
      rewrite loadManifest_try_cases in H.
      destruct Hbad as [Hr|[(raw & e & -> & Hp)
                           |(raw & data & e & -> & Hp & Ha & Hk)]].
      * by destruct manifest.
      * by rewrite Hp in H.
      * by rewrite Hp, Ha, Hk in H.
    + split; [intros _|done].
      apply loadManifest_try_throws in H
        as [[-> ->]|[(raw & -> & Hp)|(raw & -> & Hp & ->)]].
      * by left.
      * right; left. by exists raw, e.
      * right; right. by exists raw, JNull, TypeError.
  - intros data. split.
    + by intros [e [-> _]%Object_keys_throws].
    + intros ->. by exists TypeError.
  - intros root tree. apply main_failed. reflexivity.
  - intros raw numeral -> Hp. unfold loadManifest.
    by rewrite loadManifest_try_cases, Hp.
  - intros raw s -> Hp. unfold loadManifest.
    by rewrite loadManifest_try_cases, Hp.
Qed.

Lemma fatal_path_of_loadManifest_witness :
  loadManifest (Some (str "42")) = ([], Continue [])
  ∧ loadManifest (Some (quoted QUOTATION_MARK (str "ab")))
    = ([], Continue [JStr (str "0"); JStr (str "1")]).
Proof.
  split.
  - refine (proj1 (proj2 (proj2 (proj2
      (fatal_path_of_loadManifest (Some (str "42"))))))
      (str "42") (str "42") eq_refl _).
    vm_compute. reflexivity.
  - refine (proj2 (proj2 (proj2 (proj2
      (fatal_path_of_loadManifest (Some (quoted QUOTATION_MARK (str "ab")))))))
      (quoted QUOTATION_MARK (str "ab")) (str "ab") eq_refl _).
    vm_compute. reflexivity.
Defined.

(** ** The end-to-end example *)

Example end_to_end :
  main sample_world = ([console_warn [str "exmapleFeature"]], 0%Z)
  ∧ extractAllUsedKeys (str "/repo") sample_tree
    = [str "exampleFeature"; str "exmapleFeature"].
Proof. vm_compute. done. Qed.

(** ** Samples of the platform functions *)

Example JSON_parse_samples :
  JSON_parse manifest_repo
  = Normal (JArr [JStr (str "exampleFeature"); JStr (str "anotherToggle")])
  ∧ JSON_parse manifest_object_ab
    = Normal (JObj [(str "a", JObj []); (str "b", JObj [])])
  ∧ JSON_parse (str " [1, -2.5e+3, true, null] ")
    = Normal (JArr [JNum (str "1"); JNum (str "-2.5e+3"); JBool true; JNull])
  ∧ JSON_parse (str "[1,]") = Throw SyntaxError
  ∧ JSON_parse (str "{a:1}") = Throw SyntaxError
  ∧ JSON_parse [] = Throw SyntaxError.
Proof. vm_compute. done. Qed.

Example Object_keys_order :
  Object_keys (JObj [(str "b", JNull); (str "10", JNull); (str "2", JNull);
                     (str "01", JNull); (str "a", JNull)])
  = Normal [str "2"; str "10"; str "b"; str "01"; str "a"].
Proof. vm_compute. reflexivity. Qed.

(** * Further properties of the code *)

(** ** The expression and the loop *)

Lemma match_at_long content i key e :
  match_at content i key e → (i + 20 ≤ e ≤ length content)%nat.
Proof.
  intros (Hi & rest & (ws1 & ws2 & q1 & q2 & Heq & _ & _ & _ & _ & Hne & _) & ->).
  assert (length (drop i content) = (length content - i)%nat) as Hlen
    by apply length_drop.
  rewrite Heq, !length_app in Hlen. simpl in Hlen.
  destruct key as [|c key]; [done|]. simpl in Hlen. lia.
Qed.

(** X1: every answer of [exec] moves [lastIndex]: a match ends at least twenty
    code units after the index at which the search began and inside the
    text, and its capture is not empty; without a match [lastIndex] is 0. *)
Theorem exec_advances (content : jsstring) (lastIndex : nat) :
  match TOGGLE_CALL_RE_exec content lastIndex with
  | (Some key, lastIndex') =>
      (lastIndex + 20 ≤ lastIndex' ≤ length content)%nat ∧ key ≠ []
  | (None, lastIndex') => lastIndex' = 0%nat
  end.
Proof.
  pose proof (exec_spec content lastIndex) as H.
  destruct (TOGGLE_CALL_RE_exec content lastIndex) as [[key|] li'].
  - destruct H as (i & Hi & Hm & _). apply match_at_long in Hm as Hb.
    split; [lia|].
    by destruct Hm as (_ & rest & (? & ? & ? & ? & _ & _ & _ & _ & _ & ? & _) & _).
  - by destruct H.
Qed.

Lemma scan_keys_matched content from found :
  scan content from found →
  ∀ k, k ∈ found → ∃ i e, (from ≤ i)%nat ∧ match_at content i k e.
Proof.
  induction 1 as [from Hno|from i key e found Hi Hm Hno _ IH]; intros k Hk.
  - by apply elem_of_nil in Hk.
  - apply elem_of_cons in Hk as [->|Hk]; [by exists i, e|].
    destruct (IH k Hk) as (i' & e' & Hi' & Hm').
    apply match_at_bounds in Hm. exists i', e'. split; [lia|done].
Qed.

Lemma elem_of_extractToggleKeysFromFile content li k :
  k ∈ (extractToggleKeysFromFile content li).1
  ↔ ∃ found, scan content li found ∧ k ∈ found.
Proof.
  destruct (extractToggleKeysFromFile_scan content li) as (found & Hs & ->).
  simpl. rewrite elem_of_add_all, elem_of_nil. split.
  - intros [Hk|[]]. by exists found.
  - intros (found' & Hs' & Hk). left. by rewrite (scan_fun _ _ _ _ Hs Hs').
Qed.

(** X2: a key that the scan of a file returns is never empty, holds none of the
    three quote characters, and stands in the text between two quote
    characters, as it is written there. *)
Theorem extracted_keys_are_verbatim (content : jsstring) (lastIndex : nat)
    (k : jsstring) :
  k ∈ (extractToggleKeysFromFile content lastIndex).1 →
  k ≠ [] ∧ quote_free k
  ∧ ∃ before q1 q2 after,
      content = before ++ [q1] ++ k ++ [q2] ++ after
      ∧ is_quote q1 = true ∧ is_quote q2 = true.
Proof.
  intros (found & Hs & Hk)%elem_of_extractToggleKeysFromFile.
  destruct (scan_keys_matched _ _ _ Hs k Hk) as (i & e & _ & Hm).
  destruct Hm as (Hi & rest & (ws1 & ws2 & q1 & q2 & Heq & _ & _ & Hq1 & Hq2
                               & Hne & Hfree) & _).
  split_and!; [done..|].
  exists (take i content ++ HOOK_NAME ++ ws1 ++ [LEFT_PAREN] ++ ws2), q1, q2, rest.
  split_and!; [|done..].
  rewrite <- (take_drop i content) at 1. rewrite Heq.
  by rewrite <- !(assoc_L (++)).
Qed.

Lemma extracted_keys_are_verbatim_witness :
  str "unknown1" ≠ [] ∧ quote_free (str "unknown1")
  ∧ ∃ before q1 q2 after,
      three_calls = before ++ [q1] ++ str "unknown1" ++ [q2] ++ after
      ∧ is_quote q1 = true ∧ is_quote q2 = true.
Proof.
  apply (extracted_keys_are_verbatim three_calls 0 (str "unknown1")).
  vm_compute. right. left.
Defined.

Lemma add_all_extends keys used : ∃ more, add_all keys used = used ++ more.
Proof.
  unfold add_all. revert used.
  induction keys as [|k keys IH]; intros used; simpl.
  - exists []. by rewrite app_nil_r.
  - destruct (IH (Set_add k used)) as [more ->]. unfold Set_add.
    case_decide; [by exists more|].
    exists (k :: more). by rewrite <- (assoc_L (++)).
Qed.

(** X3: a call at the very start of a text is found whatever white space
    surrounds its parenthesis and whichever quote characters delimit its
    key: the key is the first one returned. *)
Theorem call_at_start_is_first_key (content key rest : jsstring) :
  match_at_front content key rest →
  ∃ more, (extractToggleKeysFromFile content 0).1 = key :: more.
Proof.
  intros Hfront.
  assert (match_at content 0 key (length content - length rest)) as Hm.
  { split; [lia|]. by exists rest. }
  unfold extractToggleKeysFromFile. rewrite exec_loop_step.
  pose proof (exec_spec content 0) as H.
  destruct (TOGGLE_CALL_RE_exec content 0) as [[key'|] li'].
  - destruct H as (i & _ & Hm' & Hno).
    assert (i = 0%nat) as ->.
    { destruct i as [|i]; [done|]. destruct (Hno 0%nat key _ ltac:(lia) Hm). }
    destruct (match_at_fun _ _ _ _ _ _ Hm Hm') as [<- _].
    destruct (extractToggleKeysFromFile_scan content li') as (found & Hs & _).
    rewrite (exec_loop_scan _ _ _ Hs). simpl.
    destruct (add_all_extends found (Set_add key [])) as [more ->].
    by exists more.
  - destruct H as [_ Hno]. destruct (Hno 0%nat key _ ltac:(lia) Hm).
Qed.

Lemma call_at_start_is_first_key_witness :
  ∃ more, (extractToggleKeysFromFile spaced_call 0).1 = str "spacedKey" :: more.
Proof.
  apply (call_at_start_is_first_key spaced_call (str "spacedKey")
           (str ", { defaultValue: false })")).
  exists [10; 9], [160], QUOTATION_MARK, QUOTATION_MARK.
  vm_compute. done.
Defined.

(** X4: a text in which the hook name does not occur yields no key. *)
Theorem no_hook_name_no_keys (content : jsstring) (lastIndex : nat) :
  (∀ before after, content ≠ before ++ HOOK_NAME ++ after) →
  (extractToggleKeysFromFile content lastIndex).1 = [].
Proof.
  intros Hno.
  assert (scan content lastIndex []) as Hs.
  { apply scan_end. intros j key e _ (Hj & rest & (ws1 & ws2 & q1 & q2 & Heq & _) & _).
    apply (Hno (take j content)
             (ws1 ++ [LEFT_PAREN] ++ ws2 ++ [q1] ++ key ++ [q2] ++ rest)).
    rewrite <- (take_drop j content) at 1. by rewrite Heq. }
  unfold extractToggleKeysFromFile. by rewrite (exec_loop_scan _ _ _ Hs).
Qed.

Lemma no_hook_name_no_keys_witness :
  (extractToggleKeysFromFile (str "import x;") 0).1 = [].
Proof.
  apply (no_hook_name_no_keys (str "import x;") 0).
  intros before after H. apply (f_equal length) in H.
  rewrite !length_app in H.
  change (length (str "import x;")) with 9%nat in H.
  change (length HOOK_NAME) with 16%nat in H. lia.
Defined.

(** The hook name does not overlap itself: a second occurrence starts at
    least sixteen code units after the first. *)
Lemma hook_name_no_self_overlap a b tail :
  HOOK_NAME ++ tail = a ++ HOOK_NAME ++ b →
  a = [] ∨ ∃ a', a = HOOK_NAME ++ a' ∧ tail = a' ++ HOOK_NAME ++ b.
Proof.
  intros H.
  destruct a as [|x0 a]; [by left|right].
  do 15 (destruct a as [|? a]; [by vm_compute in H|]).
  vm_compute in H. injection H as <- <- <- <- <- <- <- <- <- <- <- <- <- <- <- <- H.
  exists a. split; [reflexivity|]. exact H.
Qed.

(** X5: a call whose first argument does not begin with a quote character, such
    as a variable or a number, yields no key, provided the hook name does
    not occur again after it. *)
Theorem non_literal_argument_yields_nothing (ws1 ws2 : jsstring) (c : N)
    (rest : jsstring) (lastIndex : nat) :
  spaces ws1 → spaces ws2 →
  is_space c = false → is_quote c = false →
  (∀ a b, ws1 ++ [LEFT_PAREN] ++ ws2 ++ [c] ++ rest ≠ a ++ HOOK_NAME ++ b) →
  (extractToggleKeysFromFile
     (HOOK_NAME ++ ws1 ++ [LEFT_PAREN] ++ ws2 ++ [c] ++ rest) lastIndex).1 = [].
Proof.
  intros Hws1 Hws2 Hsp Hq Htail.
  set (content := HOOK_NAME ++ ws1 ++ [LEFT_PAREN] ++ ws2 ++ [c] ++ rest).
  assert (TOGGLE_CALL_RE_at content = None) as Hfront.
  { unfold TOGGLE_CALL_RE_at, content.
    rewrite (proj2 (match_literal_spec _ _ _) eq_refl). simpl.
    rewrite (drop_while_app_stop is_space ws1) by done. simpl.
    rewrite (drop_while_app_stop is_space ws2) by done. simpl.
    by rewrite Hq. }
  assert (scan content lastIndex []) as Hs.
  { apply scan_end. intros j key e _ (Hj & rest' & Hm & _).
    assert (content = take j content ++ HOOK_NAME
              ++ drop (length HOOK_NAME) (drop j content)) as Hocc.
    { rewrite <- (take_drop j content) at 1. f_equal.
      destruct Hm as (? & ? & ? & ? & -> & _).
      by rewrite drop_app_length. }
    apply hook_name_no_self_overlap in Hocc as [Hnil|(a' & _ & Hocc)].
    - assert (j = 0%nat) as ->.
      { apply (f_equal length) in Hnil. rewrite length_take in Hnil.
        simpl in Hnil. lia. }
      apply TOGGLE_CALL_RE_at_spec in Hm. rewrite drop_0 in Hm. congruence.
    - by apply Htail in Hocc. }
  unfold extractToggleKeysFromFile. by rewrite (exec_loop_scan _ _ _ Hs).
Qed.

Lemma non_literal_argument_yields_nothing_witness :
  (extractToggleKeysFromFile (str "useReleaseToggle(variableName)") 0).1 = [].
Proof.
  apply (non_literal_argument_yields_nothing [] [] 118 (str "ariableName)") 0);
    try reflexivity.
  intros a b H. apply (f_equal length) in H. rewrite !length_app in H.
  change (length HOOK_NAME) with 16%nat in H. simpl in H. lia.
Defined.

(** ** Aggregation over the tree *)

Lemma add_all_app keys keys' used :
  add_all (keys ++ keys') used = add_all keys' (add_all keys used).
Proof. unfold add_all. apply foldl_app. Qed.

Lemma scan_files_flat files used :
  scan_files files (used, 0%nat)
  = (add_all (flat_map keys_of_file files) used, 0%nat).
Proof.
  unfold scan_files. revert used.
  induction files as [|f files IH]; intros used; simpl; [done|].
  pose proof (extractToggleKeysFromFile_lastIndex (file_content f) 0) as Hli.
  assert (scan_file (used, 0%nat) f = (add_all (keys_of_file f) used, 0%nat))
    as ->.
  { unfold scan_file, keys_of_file. simpl.
    destruct (extractToggleKeysFromFile (file_content f) 0) as [keys li'].
    simpl in *. by subst. }
  by rewrite IH, add_all_app.
Qed.

(** X6: the expression is shared by all files, and every scan leaves its
    [lastIndex] at 0, whatever value it found there; so each file is read
    from its start, and the used keys are the keys of the files, taken file
    after file in the order of the walk and kept at their first occurrence. *)
Theorem shared_expression_is_reset (root : jsstring) (entries : list entry) :
  (∀ content lastIndex,
     (extractToggleKeysFromFile content lastIndex).2 = 0%nat)
  ∧ (∀ files used,
       scan_files files (used, 0%nat)
       = (add_all (flat_map keys_of_file files) used, 0%nat))
  ∧ extractAllUsedKeys root entries
    = add_all (flat_map keys_of_file (walkJsFiles (SRC_DIR root) entries)) [].
Proof.
  split_and!.
  - apply extractToggleKeysFromFile_lastIndex.
  - apply scan_files_flat.
  - unfold extractAllUsedKeys. by rewrite scan_files_flat.
Qed.

Lemma used_iff_referenced (root : jsstring) (entries : list entry)
    (k : jsstring) :
  k ∈ extractAllUsedKeys root entries ↔ referenced root entries k.
Proof.
  rewrite elem_of_extractAllUsedKeys. unfold referenced, keys_of_file. split.
  - intros (f & Hf & (found & Hs & Hk)%elem_of_extractToggleKeysFromFile).
    by exists f, found.
  - intros (f & found & Hf & Hs & Hk). exists f. split; [done|].
    apply elem_of_extractToggleKeysFromFile. by exists found.
Qed.

(** X7: the used keys are exactly the referenced keys: a key is in the used-key
    set if and only if the scan of some discovered file meets a match that
    captures it. *)
Theorem used_keys_are_the_referenced_keys (root : jsstring)
    (entries : list entry) (k : jsstring) :
  k ∈ extractAllUsedKeys root entries ↔ referenced root entries k.
Proof.
  rewrite elem_of_extractAllUsedKeys. unfold referenced, keys_of_file. split.
  - intros (f & Hf & (found & Hs & Hk)%elem_of_extractToggleKeysFromFile).
    by exists f, found.
  - intros (f & found & Hf & Hs & Hk). exists f. split; [done|].
    apply elem_of_extractToggleKeysFromFile. by exists found.
Qed.

Lemma walkJsFiles_app dir entries entries' :
  walkJsFiles dir (entries ++ entries')
  = walkJsFiles dir entries ++ walkJsFiles dir entries'.
Proof. unfold walkJsFiles. apply flat_map_app. Qed.

(** X8: listing more entries only adds: the files of two listings put together
    are the files of the first followed by those of the second, and a key
    is used in the joint listing exactly when it is used in one of them. *)
Theorem used_keys_of_joint_listing (root : jsstring)
    (entries entries' : list entry) :
  walkJsFiles (SRC_DIR root) (entries ++ entries')
  = walkJsFiles (SRC_DIR root) entries ++ walkJsFiles (SRC_DIR root) entries'
  ∧ ∀ k, k ∈ extractAllUsedKeys root (entries ++ entries')
         ↔ k ∈ extractAllUsedKeys root entries
           ∨ k ∈ extractAllUsedKeys root entries'.
Proof.
  split; [apply walkJsFiles_app|]. intros k.
  rewrite !elem_of_extractAllUsedKeys, walkJsFiles_app. split.
  - intros (f & [Hf|Hf]%elem_of_app & Hk); [left|right]; by exists f.
  - intros [(f & Hf & Hk)|(f & Hf & Hk)]; exists f;
      (split; [apply elem_of_app; by (left + right)|done]).
Qed.

Lemma absolute_path_app names names' :
  absolute_path (names ++ names') = absolute_path names ++ absolute_path names'.
Proof. unfold absolute_path. apply flat_map_app. Qed.

Lemma discovered_names dir entries f :
  Forall well_named entries → discovered dir entries f →
  ∃ names, names ≠ [] ∧ Forall simple_name names
           ∧ file_path f = dir ++ absolute_path names
           ∧ js_extension_test (file_path f) = true.
Proof.
  intros Hwn Hd. revert Hwn.
  induction Hd as [dir entries name content Hin Hext
                  |dir entries name children f Hin Hne Hd IH]; intros Hwn.
  - rewrite Forall_forall in Hwn. specialize (Hwn _ Hin).
    inversion Hwn as [? ? Hname| |]; subst.
    exists [name]. split_and!; [done|by constructor| |].
    + simpl. unfold join. by rewrite app_nil_r.
    + simpl. apply js_extension_test_spec in Hext as (stem & ext & Hext & ->).
      apply js_extension_test_spec. exists (dir ++ [SOLIDUS] ++ stem), ext.
      split; [done|]. unfold join. by rewrite <- !(assoc_L (++)).
  - rewrite Forall_forall in Hwn. specialize (Hwn _ Hin).
    inversion Hwn as [|? ? Hname Hch|]; subst.
    destruct (IH Hch) as (names & Hne' & Hnames & Hpath & Hext).
    exists (name :: names). split_and!; [done|by constructor| |done].
    rewrite Hpath. unfold join. simpl. by rewrite <- !(assoc_L (++)).
Qed.

(** X9: when the directory walked is a normalised absolute path and the
    names in the tree are simple, as [readdirSync] reports them, every path
    that the walk yields is that directory followed by one or more simple
    names, each after a separator; so it is itself a normalised absolute
    path below the directory, and it ends in one of the four script
    extensions. *)
Theorem yielded_paths_lie_under_dir (dir : jsstring) (entries : list entry)
    (f : source_file) :
  normalised_absolute dir →
  Forall well_named entries →
  f ∈ walkJsFiles dir entries →
  (∃ names, names ≠ [] ∧ Forall simple_name names
            ∧ file_path f = dir ++ absolute_path names)
  ∧ normalised_absolute (file_path f)
  ∧ ∃ stem ext, ext ∈ JS_EXTENSIONS ∧ file_path f = stem ++ ext.
Proof.
  intros (above & Hab & Habove & ->) Hwn Hd%elem_of_walkJsFiles.
  destruct (discovered_names _ _ _ Hwn Hd) as (names & Hne & Hnames & Hpath & Hext).
  split_and!.
  - by exists names.
  - exists (above ++ names). split_and!.
    + by destruct above.
    + by apply Forall_app.
    + by rewrite Hpath, absolute_path_app.
  - by apply js_extension_test_spec.
Qed.

Lemma yielded_paths_lie_under_dir_witness :
  normalised_absolute (str "/repo/src/utils/menu.ts").
Proof.
  assert (∀ name, forallb (λ c, negb (c =? SOLIDUS)) name = true →
                  name ≠ [] → name ≠ str "." → name ≠ str ".." →
                  simple_name name) as Hsimple.
  { intros name Hall ? ? ?. split_and!; [done| |done..].
    intros Hin%list_elem_of_In. rewrite forallb_forall in Hall.
    specialize (Hall _ Hin). by rewrite N.eqb_refl in Hall. }
  refine (proj1 (proj2 (yielded_paths_lie_under_dir (str "/repo/src")
            sample_tree
            (SourceFile (str "/repo/src/utils/menu.ts")
               (call_with QUOTATION_MARK (str "exmapleFeature") ++ str "; "
                ++ call_with APOSTROPHE (str "exampleFeature"))) _ _ _))).
  - exists [str "repo"; str "src"]. split_and!; [done| |reflexivity].
    repeat (apply Forall_cons_2; [apply Hsimple; [by vm_compute|done..]|]).
    apply Forall_nil_2.
  - repeat first [ apply Forall_nil_2
                 | apply Forall_cons_2
                 | apply well_named_file; apply Hsimple; [by vm_compute|done..]
                 | apply well_named_other; apply Hsimple; [by vm_compute|done..]
                 | apply well_named_dir; [apply Hsimple; [by vm_compute|done..]|] ].
  - vm_compute. right. left.
Defined.

Lemma walk_entry_contents e :
  ∀ dir dir', file_content <$> walk_entry dir e
              = file_content <$> walk_entry dir' e.
Proof.
  induction e as [name content|name children IH|name] using entry_nested_ind;
    intros dir dir'; simpl; [by destruct (js_extension_test name)| |done].
  case_decide; [|done].
  generalize (join dir name) (join dir' name). intros d d'.
  induction IH as [|c children Hc _ IHch]; simpl; [done|].
  by rewrite !fmap_app, (Hc d d'), IHch.
Qed.

Lemma walkJsFiles_contents dir dir' entries :
  file_content <$> walkJsFiles dir entries
  = file_content <$> walkJsFiles dir' entries.
Proof.
  unfold walkJsFiles. induction entries as [|e entries IH]; simpl; [done|].
  by rewrite !fmap_app, (walk_entry_contents e dir dir'), IH.
Qed.

Lemma flat_map_keys_of_file files :
  flat_map keys_of_file files
  = flat_map (λ content, (extractToggleKeysFromFile content 0).1)
      (file_content <$> files).
Proof.
  induction files as [|f files IH]; simpl; [done|]. by rewrite IH.
Qed.

(** X10: the paths and names of the files do not enter the result: the used
    keys depend on the texts of the discovered files only; so for a run
    whose manifest loads and whose tree is read, the place of the project
    root changes neither what is written nor the exit status. *)
Theorem run_ignores_the_root (root root' : jsstring)
    (manifest : option jsstring) (entries : list entry) :
  extractAllUsedKeys root entries = extractAllUsedKeys root' entries
  ∧ ∀ defined, loadManifest_try manifest = Normal defined →
      main (World root manifest (Some entries))
      = main (World root' manifest (Some entries)).
Proof.
  assert (extractAllUsedKeys root entries = extractAllUsedKeys root' entries)
    as Hused.
  { unfold extractAllUsedKeys. rewrite !scan_files_flat. simpl.
    rewrite !flat_map_keys_of_file.
    by rewrite (walkJsFiles_contents (SRC_DIR root) (SRC_DIR root')). }
  split; [done|]. intros defined Hm.
  rewrite (main_loaded (World root manifest (Some entries)) defined entries),
          (main_loaded (World root' manifest (Some entries)) defined entries);
    [|done..].
  simpl. by rewrite Hused.
Qed.

Lemma run_ignores_the_root_witness :
  main (World (str "/repo") (Some manifest_repo) (Some sample_tree))
  = main (World (str "/home/ci/checkout") (Some manifest_repo)
            (Some sample_tree)).
Proof.
  apply (proj2 (run_ignores_the_root (str "/repo") (str "/home/ci/checkout")
                  (Some manifest_repo) sample_tree)
           [JStr (str "exampleFeature"); JStr (str "anotherToggle")]).
  vm_compute. reflexivity.
Defined.

(** ** The manifest and the report *)

Lemma Set_has_ext defined defined' :
  (∀ k, JStr k ∈ defined ↔ JStr k ∈ defined') →
  ∀ k, Set_has defined k = Set_has defined' k.
Proof.
  intros H k. apply eq_true_iff_eq. by rewrite !Set_has_spec.
Qed.

Lemma unknown_keys_ext defined defined' used :
  (∀ k, JStr k ∈ defined ↔ JStr k ∈ defined') →
  unknown_keys defined used = unknown_keys defined' used.
Proof.
  intros H. unfold unknown_keys. apply List.filter_ext.
  intros k. by rewrite (Set_has_ext _ _ H).
Qed.

Lemma elem_of_map_JStr k names : JStr k ∈ map JStr names ↔ k ∈ names.
Proof.
  rewrite !list_elem_of_In, in_map_iff. split.
  - by intros (k' & [= ->] & ?).
  - intros ?. by exists k.
Qed.

(** X11: the two shapes of a manifest are interchangeable in general: an array
    of strings and an object whose property names are the same strings, in
    any order and with any values, give the same run on every tree. *)
Theorem manifest_shapes_agree (raw raw' : jsstring) (names : list jsstring)
    (members : list (jsstring * json)) (root : jsstring)
    (tree : option (list entry)) :
  JSON_parse raw = Normal (JArr (map JStr names)) →
  JSON_parse raw' = Normal (JObj members) →
  (∀ k, k ∈ names ↔ k ∈ members.*1) →
  main (World root (Some raw) tree) = main (World root (Some raw') tree).
Proof.
  intros Hp Hp' Hsame.
  assert (loadManifest_try (Some raw) = Normal (map JStr names)) as Hm
    by by rewrite loadManifest_try_cases, Hp.
  assert (loadManifest_try (Some raw')
          = Normal (map JStr (own_keys_order members.*1))) as Hm'
    by by rewrite loadManifest_try_cases, Hp'.
  destruct tree as [entries|].
  - rewrite (main_loaded (World root (Some raw) (Some entries))
               (map JStr names) entries Hm eq_refl),
            (main_loaded (World root (Some raw') (Some entries))
               (map JStr (own_keys_order members.*1)) entries Hm' eq_refl).
    simpl. rewrite (unknown_keys_ext (map JStr names)
                      (map JStr (own_keys_order members.*1))); [done|].
    intros k. by rewrite !elem_of_map_JStr, elem_of_own_keys_order.
  - by rewrite (main_unreadable (World root (Some raw) None) _ Hm eq_refl),
               (main_unreadable (World root (Some raw') None) _ Hm' eq_refl).
Qed.

Lemma manifest_shapes_agree_witness :
  main (World (str "/repo") (Some manifest_array_ab) (Some sample_tree))
  = main (World (str "/repo") (Some manifest_object_ab) (Some sample_tree)).
Proof.
  apply (manifest_shapes_agree manifest_array_ab manifest_object_ab
           [str "a"; str "b"] [(str "a", JObj []); (str "b", JObj [])]).
  - vm_compute. reflexivity.
  - vm_compute. reflexivity.
  - intros k. reflexivity.
Defined.



Lemma unknown_keys_nil used : unknown_keys [] used = used.
Proof.
  unfold unknown_keys. induction used as [|k used IH]; [done|].
  simpl. f_equal. exact IH.
Qed.

Lemma unknown_keys_sublist defined used :
  unknown_keys defined used `sublist_of` used.
Proof.
  unfold unknown_keys. induction used as [|k used IH]; simpl; [done|].
  destruct (negb (Set_has defined k)); by constructor.
Qed.

Lemma reports_spec w defined entries k :
  loadManifest_try (manifest_file w) = Normal defined →
  src w = Some entries →
  reports w k
  ↔ k ∈ unknown_keys defined (extractAllUsedKeys (ROOT w) entries).
Proof.
  intros Hm Hsrc. unfold reports.
  rewrite (main_loaded w defined entries Hm Hsrc). simpl.
  destruct (unknown_keys defined _) as [|k' l] eqn:Hu; simpl.
  - split; [|by intros ?%elem_of_nil].
    intros (reported & Hin%list_elem_of_singleton & _). discriminate.
  - split.
    + intros (reported & Hin%list_elem_of_singleton & Hk).
      by injection Hin as ->.
    + intros Hk. exists (k' :: l). split; [by left|done].
Qed.

(** X13: on a tree that is read, a run whose manifest is empty warns about
    all the used keys, in the order of their first use; a run with a longer
    manifest never reports a key that the run with the shorter manifest
    does not report; and every warning lists its keys in the order in which
    they were used. *)
Theorem report_shrinks_as_manifest_grows (w w' : world)
    (defined more : list json) (entries : list entry) :
  ROOT w = ROOT w' → src w = Some entries → src w' = Some entries →
  loadManifest_try (manifest_file w) = Normal defined →
  loadManifest_try (manifest_file w') = Normal (defined ++ more) →
  let used := extractAllUsedKeys (ROOT w) entries in
  (∀ k, reports w' k → reports w k)
  ∧ (defined = [] → used ≠ [] → (main w).1 = [console_warn used])
  ∧ (∀ reported, console_warn reported ∈ (main w).1 →
                 reported `sublist_of` used).
Proof.
  intros Hroot Hsrc Hsrc' Hm Hm' used. split_and!.
  - intros k. rewrite (reports_spec w defined entries k Hm Hsrc),
      (reports_spec w' (defined ++ more) entries k Hm' Hsrc'), <- Hroot.
    rewrite !elem_of_unknown_keys, elem_of_app. tauto.
  - intros -> Hne. rewrite (main_loaded w [] entries Hm Hsrc). simpl.
    rewrite unknown_keys_nil. fold used. by destruct used.
  - intros reported. rewrite (main_loaded w defined entries Hm Hsrc). simpl.
    fold used. case_decide; simpl; intros Hin%list_elem_of_singleton; [|done].
    injection Hin as ->. apply unknown_keys_sublist.
Qed.

Lemma report_shrinks_as_manifest_grows_witness :
  (main (World (str "/repo") (Some (str "[]")) (Some sample_tree))).1
  = [console_warn [str "exampleFeature"; str "exmapleFeature"]].
Proof.
  refine (proj1 (proj2 (report_shrinks_as_manifest_grows
    (World (str "/repo") (Some (str "[]")) (Some sample_tree)) sample_world
    [] [JStr (str "exampleFeature"); JStr (str "anotherToggle")] sample_tree
    eq_refl eq_refl eq_refl _ _)) eq_refl _).
  - vm_compute. reflexivity.
  - vm_compute. reflexivity.
  - vm_compute. discriminate.
Defined.

(** X14: when the manifest loads and the tree is read, the run prints the
    success notice exactly when every referenced key is a string of the
    manifest. *)
Theorem success_iff_all_referenced_defined (w : world) (defined : list json)
    (entries : list entry) :
  loadManifest_try (manifest_file w) = Normal defined →
  src w = Some entries →
  (main w).1 = [console_log]
  ↔ ∀ k, referenced (ROOT w) entries k → JStr k ∈ defined.
Proof.
  intros Hm Hsrc. rewrite (main_loaded w defined entries Hm Hsrc). simpl.
  set (used := extractAllUsedKeys (ROOT w) entries).
  assert ((∀ k, referenced (ROOT w) entries k → JStr k ∈ defined)
          ↔ unknown_keys defined used = []) as ->.
  { split.
    - intros Hall. apply elem_of_nil_inv.
      intros k [Hk Hnot]%elem_of_unknown_keys. apply Hnot, Hall.
      by apply used_iff_referenced.
    - intros Hnil k Hk%used_iff_referenced.
      apply Set_has_spec. destruct (Set_has defined k) eqn:Hhas; [done|].
      assert (k ∈ unknown_keys defined used) as Hin.
      { apply elem_of_unknown_keys. split; [done|].
        rewrite <- Set_has_spec. congruence. }
      rewrite Hnil in Hin. by apply elem_of_nil in Hin. }
  destruct (unknown_keys defined used); simpl; split; done.
Qed.

Lemma success_iff_all_referenced_defined_witness :
  ((main tidy_world).1 = [console_log]
   ↔ ∀ k, referenced (str "/repo") tidy_tree k
          → JStr k ∈ [JStr (str "exampleFeature"); JStr (str "anotherToggle")])
  ∧ referenced (str "/repo") tidy_tree (str "anotherToggle").
Proof.
  split.
  - apply (success_iff_all_referenced_defined tidy_world
             [JStr (str "exampleFeature"); JStr (str "anotherToggle")]
             tidy_tree).
    + vm_compute. reflexivity.
    + reflexivity.
  - exists (SourceFile (str "/repo/src/utils/menu.ts")
              (call_with QUOTATION_MARK (str "anotherToggle"))),
           [str "anotherToggle"].
    split_and!.
    + vm_compute. right. left.
    + eapply scan_exec_match; [vm_compute; reflexivity|].
      eapply scan_exec_end. vm_compute. reflexivity.
    + left.
Defined.

(** X15: every run writes exactly one message: the error of the manifest, and
    nothing else, exactly when it ends with status 2; the report of an
    uncaught exception, and neither warning nor notice, exactly when it
    ends with status 1, which is when the manifest loads and a read of the
    tree throws; and a warning with at least one key or the success notice
    exactly when it ends with status 0. *)
Theorem one_message_per_run (w : world) :
  ∃ m, (main w).1 = [m]
       ∧ ((main w).2 = 2%Z ↔ ∃ e, m = console_error e)
       ∧ ((main w).2 = 1%Z ↔ ∃ e, m = uncaught_exception e)
       ∧ ((main w).2 = 1%Z
          ↔ (∃ defined, loadManifest_try (manifest_file w) = Normal defined)
            ∧ src w = None)
       ∧ ((main w).2 = 0%Z
          ↔ m = console_log ∨ ∃ unknown, m = console_warn unknown
                                         ∧ unknown ≠ []).
Proof.
  destruct (loadManifest_try (manifest_file w)) as [defined|e] eqn:Hm.
  - destruct (src w) as [entries|] eqn:Hsrc.
    + rewrite (main_loaded w defined entries Hm Hsrc). simpl.
      destruct (unknown_keys defined _) as [|k l] eqn:Hu; simpl.
      * exists console_log. split_and!; [done|..].
        -- split; [done|]. by intros [? ?].
        -- split; [done|]. by intros [? ?].
        -- split; [done|]. by intros [_ ?].
        -- split; [by left|done].
      * exists (console_warn (k :: l)). split_and!; [done|..].
        -- split; [done|]. by intros [? ?].
        -- split; [done|]. by intros [? ?].
        -- split; [done|]. by intros [_ ?].
        -- split; [|done]. intros _. right. by exists (k :: l).
    + rewrite (main_unreadable w defined Hm Hsrc).
      exists (uncaught_exception ReadError). split_and!; [done|..].
      * split; [done|]. by intros [? ?].
      * split; [|done]. intros _. by exists ReadError.
      * split; [|done]. intros _. split; [by exists defined|done].
      * split; [done|]. by intros [?|(? & ? & _)].
  - rewrite (main_failed w e Hm). exists (console_error e).
    split_and!; [done|..].
    + split; [|done]. intros _. by exists e.
    + split; [done|]. by intros [? ?].
    + split; [done|]. by intros [[? ?] _].
    + split; [done|]. by intros [?|(? & ? & _)].
Qed.

(** ** The path of the manifest *)



(** ** The hook *)

(** X17: the effect of the hook enters its branch only on the path that returns
    the default value: never for a key that is an own property, and, with
    the options left out, for every key that is not.  The option
    [alertIfUnknown] never changes the value returned. *)
Theorem alert_only_on_the_default_path (store : state) (toggleKey : jsstring)
    (opts : option options) :
  (useReleaseToggle_effect store toggleKey opts = true →
     useReleaseToggle store toggleKey opts = defaultValue_of opts
     ∧ truthy (alertIfUnknown_of opts) = true)
  ∧ (∀ own v, entitlements (common store) = SlotObject own →
              own !! toggleKey = Some v →
              useReleaseToggle_effect store toggleKey opts = false)
  ∧ (opts = None →
     useReleaseToggle_effect store toggleKey opts
     = negb (toggleExists (entitlements (common store)) toggleKey))
  ∧ (∀ d a a', useReleaseToggle store toggleKey (Some (Options d a))
               = useReleaseToggle store toggleKey (Some (Options d a'))).
Proof.
  unfold useReleaseToggle_effect, useReleaseToggle, useSelector, alert_due.
  split_and!.
  - intros [Hex Ht]%andb_prop. apply negb_true_iff in Hex. by rewrite Hex.
  - intros own v -> Hv. simpl.
    rewrite bool_decide_eq_true_2 by (by exists v). done.
  - intros ->. simpl. by rewrite andb_true_r.
  - done.
Qed.

Lemma alert_only_on_the_default_path_witness :
  useReleaseToggle sample_store (str "anotherToggle") None = VBool true
  ∧ useReleaseToggle_effect sample_store (str "exampleFeature") None = false.
Proof.
  split.
  - apply (proj1 (alert_only_on_the_default_path sample_store
                    (str "anotherToggle") None)).
    vm_compute. reflexivity.
  - apply (proj1 (proj2 (alert_only_on_the_default_path sample_store
                    (str "exampleFeature") None))
             {[ str "exampleFeature" := VBool false ]} (VBool false) eq_refl).
    vm_compute. reflexivity.
Defined.

(** X18: the answer of the hook for a key depends on the entry of that key
    only: after the key is set the hook returns the value set, whatever it
    is; setting or removing another key changes nothing; and once the key
    is removed, or in an empty mapping, the hook returns the default
    value. *)
Theorem hook_reads_only_its_key (own : gmap jsstring value)
    (toggleKey other : jsstring) (v : value) (opts : option options) :
  useReleaseToggle (store_of (<[toggleKey := v]> own)) toggleKey opts = v
  ∧ (other ≠ toggleKey →
     useReleaseToggle (store_of (<[other := v]> own)) toggleKey opts
     = useReleaseToggle (store_of own) toggleKey opts
     ∧ useReleaseToggle (store_of (delete other own)) toggleKey opts
       = useReleaseToggle (store_of own) toggleKey opts)
  ∧ useReleaseToggle (store_of (delete toggleKey own)) toggleKey opts
    = defaultValue_of opts
  ∧ useReleaseToggle (store_of ∅) toggleKey opts = defaultValue_of opts.
Proof.
  unfold useReleaseToggle, useSelector, store_of. simpl. split_and!.
  - by rewrite lookup_insert_eq.
  - intros Hne. by rewrite lookup_insert_ne, lookup_delete_ne.
  - by rewrite lookup_delete_eq.
  - by rewrite lookup_empty.
Qed.

Lemma hook_reads_only_its_key_witness :
  useReleaseToggle
    (store_of (<[str "anotherToggle" := VBool true]>
                 {[ str "exampleFeature" := VBool false ]}))
    (str "exampleFeature") None
  = useReleaseToggle (store_of {[ str "exampleFeature" := VBool false ]})
      (str "exampleFeature") None.
Proof.
  apply (proj1 (proj2 (hook_reads_only_its_key
           {[ str "exampleFeature" := VBool false ]}
           (str "exampleFeature") (str "anotherToggle") (VBool true) None))).
  discriminate.
Defined.
